(** * Verification of the streaming feedback parser and the history service
    of the Japanese sentence practice application, with the audio and JSON
    helpers, the grammar loader and the history-related parts of [App] and
    of the screens.

    Sources: [services/geminiService.ts] ([evaluateSentenceStream], [decode],
    [decodeAudioData], [parseJsonResponse], [getGrammarPoints], ...),
    [services/historyService.ts] (getHistory, addHistoryItem, ...), [App.tsx]
    and the screen components. *)

From Stdlib Require Import List Bool NArith ZArith QArith Lia Ascii String Permutation.
Import ListNotations.
Close Scope Q_scope.

(* ------------------------------------------------------------------ *)
(** ** JavaScript strings *)

(** A JavaScript string is a sequence of UTF-16 code units. *)
Module JsString.

Definition jsstr := list N.

Local Open Scope N_scope.

(** ASCII literal to code units (every literal of the source that is
    ASCII is written through this). *)
Definition u (s : string) : jsstr := map N_of_ascii (list_ascii_of_string s).

(** LineTerminator of ECMAScript: LF, CR, LS, PS. *)
Definition is_line_terminator (c : N) : bool :=
  (c =? 10) || (c =? 13) || (c =? 8232) || (c =? 8233).

(** WhiteSpace or LineTerminator: the class [\s] of regular expressions and
    the characters removed by [String.prototype.trim]. *)
Definition is_ws (c : N) : bool :=
  (c =? 9) || (c =? 10) || (c =? 11) || (c =? 12) || (c =? 13) || (c =? 32)
  || (c =? 160) || (c =? 5760) || ((8192 <=? c) && (c <=? 8202))
  || (c =? 8232) || (c =? 8233) || (c =? 8239) || (c =? 8287)
  || (c =? 12288) || (c =? 65279).

(** The class [\d] (without the [u] flag): ASCII digits. *)
Definition is_digit (c : N) : bool := (48 <=? c) && (c <=? 57).

Fixpoint is_prefix (p s : jsstr) : bool :=
  match p, s with
  | [], _ => true
  | x :: p', y :: s' => (x =? y) && is_prefix p' s'
  | _ :: _, [] => false
  end.

(** [s.indexOf(p)], with [None] for [-1]. *)
Fixpoint index_of (p s : jsstr) : option nat :=
  if is_prefix p s then Some 0%nat
  else match s with
       | [] => None
       | _ :: s' => option_map S (index_of p s')
       end.

(** [s.substring(0, i)] and [s.substring(i)] for [0 <= i]. *)
Definition substring_to (s : jsstr) (i : nat) : jsstr := firstn i s.
Definition substring_from (s : jsstr) (i : nat) : jsstr := skipn i s.

Fixpoint drop_ws (s : jsstr) : jsstr :=
  match s with
  | c :: s' => if is_ws c then drop_ws s' else s
  | [] => []
  end.

Fixpoint take_while (f : N -> bool) (s : jsstr) : jsstr :=
  match s with
  | c :: s' => if f c then c :: take_while f s' else []
  | [] => []
  end.

Fixpoint drop_while (f : N -> bool) (s : jsstr) : jsstr :=
  match s with
  | c :: s' => if f c then drop_while f s' else s
  | [] => []
  end.

(** [s.trim()]. *)
Definition trim (s : jsstr) : jsstr := rev (drop_ws (rev (drop_ws s))).

(** [s.split('\n')] (never empty: [''.split('\n')] is [['']]). *)
Fixpoint split_nl (s : jsstr) : list jsstr :=
  match s with
  | [] => [[]]
  | c :: s' =>
      let r := split_nl s' in
      if c =? 10 then [] :: r
      else match r with
           | l :: ls => (c :: l) :: ls
           | [] => [[c]]
           end
  end.

(** [lines.join('\n')]. *)
Fixpoint join_nl (ls : list jsstr) : jsstr :=
  match ls with
  | [] => []
  | [l] => l
  | l :: ls' => l ++ [10%N] ++ join_nl ls'
  end.

(** [lines.findIndex(f)], with [None] for [-1]. *)
Fixpoint find_index {A} (f : A -> bool) (l : list A) : option nat :=
  match l with
  | [] => None
  | x :: l' => if f x then Some 0%nat else option_map S (find_index f l')
  end.

(** [parseInt(d, 10)] on a non-empty string of ASCII digits: its decimal
    value (JavaScript rounds values above 2^53 to a double; captures are
    taken to stay below that bound). *)
Definition parseInt (d : jsstr) : Z :=
  fold_left (fun acc c => acc * 10 + (Z.of_N c - 48))%Z d 0%Z.

End JsString.

(* ------------------------------------------------------------------ *)
(** ** The regular expressions of the header parser *)

(** The three patterns [/^score:\s*(\d+)/m], [/^evaluation:\s* ( .* ) /m] and
    [/^correctedSentence:\s* ( .* ) /m] with ECMAScript backtracking semantics:
    [^] in multiline mode holds at the start of input or after a line
    terminator, quantifiers are greedy and backtrack, [.] is any code unit
    but a line terminator, and [String.prototype.match] returns the leftmost
    match. *)
Module Regex.
Import JsString.
Local Open Scope N_scope.

Inductive atom :=
| ABol                          (* ^ with the m flag *)
| ALit (c : N)                  (* a literal code unit *)
| AStar (cls : N -> bool)       (* cls* *)
| ACapStar (cls : N -> bool)    (* (cls* ) *)
| ACapPlus (cls : N -> bool).   (* (cls+) *)

Definition line_start (prev : option N) : bool :=
  match prev with
  | None => true
  | Some c => is_line_terminator c
  end.

(** Greedy repetition of a class with backtracking: consume as many as
    possible, then give back one at a time until the continuation matches.
    [acc] is the text consumed so far. *)
Fixpoint star {A} (cls : N -> bool) (k : option N -> jsstr -> jsstr -> option A)
    (prev : option N) (s : jsstr) (acc : jsstr) : option A :=
  match s with
  | x :: s' =>
      if cls x then
        match star cls k (Some x) s' (acc ++ [x]) with
        | Some r => Some r
        | None => k prev s acc
        end
      else k prev s acc
  | [] => k prev s acc
  end.

(** Match a pattern at the current position; the result is the capture
    (group 1) on success. [prev] is the code unit before the position. *)
Fixpoint m (pat : list atom) (prev : option N) (s : jsstr) (cap : option jsstr)
    : option (option jsstr) :=
  match pat with
  | [] => Some cap
  | ABol :: r => if line_start prev then m r prev s cap else None
  | ALit c :: r =>
      match s with
      | x :: s' => if x =? c then m r (Some x) s' cap else None
      | [] => None
      end
  | AStar cls :: r => star cls (fun p s' _ => m r p s' cap) prev s []
  | ACapStar cls :: r => star cls (fun p s' got => m r p s' (Some got)) prev s []
  | ACapPlus cls :: r =>
      match s with
      | x :: s' =>
          if cls x then star cls (fun p s'' got => m r p s'' (Some got)) (Some x) s' [x]
          else None
      | [] => None
      end
  end.

(** Leftmost match: try every start position in order. *)
Fixpoint search (pat : list atom) (prev : option N) (s : jsstr) : option (option jsstr) :=
  match m pat prev s None with
  | Some cap => Some cap
  | None =>
      match s with
      | [] => None
      | x :: s' => search pat (Some x) s'
      end
  end.

(** [header.match(re)]: [None] for [null], else group 1. *)
Definition str_match (pat : list atom) (s : jsstr) : option (option jsstr) :=
  search pat None s.

Definition lits (w : jsstr) : list atom := map ALit w.

Definition not_lt (c : N) : bool := negb (is_line_terminator c).

Definition score_re : list atom :=
  ABol :: lits (u "score:") ++ [AStar is_ws; ACapPlus is_digit].
Definition evaluation_re : list atom :=
  ABol :: lits (u "evaluation:") ++ [AStar is_ws; ACapStar not_lt].
Definition correctedSentence_re : list atom :=
  ABol :: lits (u "correctedSentence:") ++ [AStar is_ws; ACapStar not_lt].

End Regex.

(* ------------------------------------------------------------------ *)
(** ** [evaluateSentenceStream] *)

Module Stream.
Import JsString Regex.

Record StructuredData := {
  score : Z;
  evaluation : jsstr;
  correctedSentence : jsstr
}.

(** The observable effects of a run: the calls of the three callbacks, in
    order. The callbacks are the caller's and are taken not to throw. *)
Inductive Event :=
| OnStructuredData (d : StructuredData)
| OnExplanationChunk (chunk : jsstr)
| OnStreamEnd.

Definition separator : jsstr := u (String "010" "--- ") ++ [10%N].

(** "评价未提供" *)
Definition evaluation_default : jsstr := [35780; 20215; 26410; 25552; 20379]%N.
Definition correction_default : jsstr := u "(AI did not provide a correction.)".
Definition error_message : jsstr :=
  [10; 10]%N ++ u "**Error:** Failed to get feedback from the AI. Please try again.".

(** The three [match] calls and the defaults, shared by both paths. *)
Definition parse_header (header : jsstr) : StructuredData :=
  {| score :=
       match str_match score_re header with
       | Some (Some d) => parseInt d
       | _ => 0%Z
       end;
     evaluation :=
       match str_match evaluation_re header with
       | Some (Some e) => trim e
       | _ => evaluation_default
       end;
     correctedSentence :=
       match str_match correctedSentence_re header with
       | Some (Some c) => trim c
       | _ => correction_default
       end |}.

Record LoopState := {
  buffer : jsstr;
  headersParsed : bool;
  emitted : list Event
}.

Definition init_state : LoopState :=
  {| buffer := []; headersParsed := false; emitted := [] |}.

(** One iteration of [for await (const chunk of stream)]; [text] is
    [chunk.text], an undefined text being the empty string (both falsy). *)
Definition chunk_step (st : LoopState) (text : jsstr) : LoopState :=
  match text with
  | [] => st
  | _ :: _ =>
      if headersParsed st then
        {| buffer := buffer st; headersParsed := true;
           emitted := emitted st ++ [OnExplanationChunk text] |}
      else
        let buf := buffer st ++ text in
        match index_of separator buf with
        | Some i =>
            let header := substring_to buf i in
            let firstChunk := substring_from buf (i + List.length separator) in
            {| buffer := buf; headersParsed := true;
               emitted := emitted st ++ [OnStructuredData (parse_header header)]
                          ++ (match firstChunk with
                              | [] => []
                              | _ :: _ => [OnExplanationChunk firstChunk]
                              end) |}
        | None => {| buffer := buf; headersParsed := false; emitted := emitted st |}
        end
  end.

Definition run_loop (chunks : list jsstr) : LoopState :=
  fold_left chunk_step chunks init_state.

(** The explanation guessed by the fallback when no separator is present. *)
Definition guess_explanation (headers : jsstr) : jsstr :=
  let lines := split_nl headers in
  match find_index (is_prefix (u "correctedSentence:")) lines with
  | Some k =>
      if Nat.ltb (k + 1) (List.length lines)
      then trim (join_nl (skipn (k + 1) lines))
      else []
  | None => []
  end.

(** The code after the loop (the fallback for a missing separator). *)
Definition fallback (st : LoopState) : list Event :=
  if negb (headersParsed st) && negb (Nat.eqb (List.length (buffer st)) 0) then
    let headerPart := buffer st in
    let separatorIndex := index_of separator headerPart in
    let headers := match separatorIndex with
                   | Some i => substring_to headerPart i
                   | None => headerPart
                   end in
    let explanation := match separatorIndex with
                       | Some i => substring_from headerPart (i + List.length separator)
                       | None => guess_explanation headers
                       end in
    [OnStructuredData (parse_header headers)]
      ++ (match explanation with
          | [] => []
          | _ :: _ => [OnExplanationChunk explanation]
          end)
  else [].

(** Outcome of the [try] block: it runs to its end, or throws after having
    emitted some events. *)
Inductive Outcome :=
| Normal (evs : list Event)
| Thrown (evs : list Event).

(** The model stream yields [chunks], then either ends ([fails = false]) or
    throws ([fails = true]); a failure of [generateContentStream] itself is
    [chunks = []] with [fails = true]. *)
Definition try_block (chunks : list jsstr) (fails : bool) : Outcome :=
  let st := run_loop chunks in
  if fails then Thrown (emitted st) else Normal (emitted st ++ fallback st).

(** [try { ... } catch { onExplanationChunk(msg) } finally { await onStreamEnd() }] *)
Definition evaluateSentenceStream (chunks : list jsstr) (fails : bool) : list Event :=
  match try_block chunks fails with
  | Normal evs => evs ++ [OnStreamEnd]
  | Thrown evs => evs ++ [OnExplanationChunk error_message] ++ [OnStreamEnd]
  end.

(** Projections of a run used by the statements. *)
Fixpoint structured (evs : list Event) : list StructuredData :=
  match evs with
  | [] => []
  | OnStructuredData d :: r => d :: structured r
  | _ :: r => structured r
  end.

Fixpoint explanations (evs : list Event) : list jsstr :=
  match evs with
  | [] => []
  | OnExplanationChunk c :: r => c :: explanations r
  | _ :: r => explanations r
  end.

Definition explanation_text (evs : list Event) : jsstr := List.concat (explanations evs).

End Stream.

(* ------------------------------------------------------------------ *)
(** ** Two readings of the header fields *)

Module HeaderReading.
Import JsString Regex Stream.

(** The text from the first line start (start of input, or after any line
    terminator) at which [P] holds. *)
Fixpoint first_line_where (P : jsstr -> bool) (prev : option N) (s : jsstr) : option jsstr :=
  if line_start prev && P s then Some s
  else match s with
       | [] => None
       | x :: s' => first_line_where P (Some x) s'
       end.

Definition starts_with_digit (s : jsstr) : bool :=
  match s with d :: _ => is_digit d | [] => false end.

Definition score_line (s : jsstr) : bool :=
  is_prefix (u "score:") s && starts_with_digit (drop_ws (skipn 6 s)).

(** The value after a label: whitespace (line breaks included) is skipped,
    then the text up to the next line terminator is taken. *)
Definition label_value (name : jsstr) (s : jsstr) : option jsstr :=
  match first_line_where (is_prefix name) None s with
  | Some l => Some (take_while Regex.not_lt (drop_ws (skipn (List.length name) l)))
  | None => None
  end.

(** The line-by-line reading of the fields ([split('\n')] lines): the first
    line with the label, its remainder trimmed. *)
Definition line_remainder (name : jsstr) (header : jsstr) : option jsstr :=
  match find (is_prefix name) (split_nl header) with
  | Some l => Some (trim (skipn (List.length name) l))
  | None => None
  end.

Definition line_fields (header : jsstr) : StructuredData :=
  {| score :=
       match find (fun l => is_prefix (u "score:") l
                            && starts_with_digit (drop_ws (skipn 6 l))) (split_nl header) with
       | Some l => parseInt (take_while is_digit (drop_ws (skipn 6 l)))
       | None => 0%Z
       end;
     evaluation :=
       match line_remainder (u "evaluation:") header with
       | Some v => v
       | None => evaluation_default
       end;
     correctedSentence :=
       match line_remainder (u "correctedSentence:") header with
       | Some v => v
       | None => correction_default
       end |}.

End HeaderReading.

(* ------------------------------------------------------------------ *)
(** ** [historyService] *)

Module History.
Import JsString.

Inductive GameMode := Translation | MultipleChoice.

(** A history item as read back from storage or from an imported file.
    The fields used by the service are [None] when they do not have the
    type checked by [typeof] (or are absent); [payload] stands for every
    other field, so two items with the same key can still differ. *)
Record HistoryItem := {
  id : option jsstr;
  timestamp : option Z;
  gameMode : option GameMode;
  chineseSentence : option jsstr;
  userSentence : option jsstr;
  payload : nat
}.

Definition jsstr_eqb (a b : jsstr) : bool :=
  if list_eq_dec N.eq_dec a b then true else false.

Definition opt_jsstr_eqb (a b : option jsstr) : bool :=
  match a, b with
  | Some x, Some y => jsstr_eqb x y
  | None, None => true
  | _, _ => false
  end.

(** The storage backend: [V] is the JSON text kept under
    ['japanesePracticeHistory'], [stringify] is [JSON.stringify], [parse] is
    [JSON.parse] at the type [HistoryItem[]] ([None] when it throws),
    [truthy] is the truthiness test [if (historyJson)] and [fits] tells
    whether [localStorage.setItem] accepts the value (it throws a
    QuotaExceededError otherwise). *)
Record Backend := {
  V : Type;
  stringify : list HistoryItem -> V;
  parse : V -> option (list HistoryItem);
  truthy : V -> bool;
  fits : V -> bool
}.

(** [localStorage]: when [available] is false every access throws (storage
    disabled); [value] is the entry under the history key. *)
Record Store (B : Backend) := {
  available : bool;
  value : option (V B)
}.
Arguments available {B}.
Arguments value {B}.
Arguments Build_Store {B}.

Section Service.
Variable B : Backend.

(** [localStorage.getItem(HISTORY_KEY)]; [None] when it throws. *)
Definition getItem (st : Store B) : option (option (V B)) :=
  if available st then Some (value st) else None.

(** [localStorage.setItem(HISTORY_KEY, v)]; [None] when it throws. *)
Definition setItem (st : Store B) (v : V B) : option (Store B) :=
  if available st && fits B v then Some (Build_Store true (Some v)) else None.

Definition getHistory (st : Store B) : list HistoryItem :=
  match getItem st with
  | Some (Some historyJson) =>
      if truthy B historyJson then
        match parse B historyJson with
        | Some h => h
        | None => []
        end
      else []
  | _ => []
  end.

(** [try { ...; setItem(...) } catch { log }]: a failed write leaves the
    store as it was. *)
Definition save (st : Store B) (h : list HistoryItem) : Store B :=
  match setItem st (stringify B h) with
  | Some st' => st'
  | None => st
  end.

Definition addHistoryItem (newItem : HistoryItem) (st : Store B) : Store B :=
  let currentHistory := getHistory st in
  let newHistory := firstn 100 (newItem :: currentHistory) in
  save st newHistory.

Definition updateHistoryItem (updatedItem : HistoryItem) (st : Store B) : Store B :=
  let currentHistory := getHistory st in
  let newHistory := map (fun item =>
                           if opt_jsstr_eqb (id item) (id updatedItem)
                           then updatedItem else item) currentHistory in
  save st newHistory.

Definition deleteHistoryItem (i : jsstr) (st : Store B) : Store B :=
  let currentHistory := getHistory st in
  let newHistory := filter (fun item => negb (opt_jsstr_eqb (id item) (Some i)))
                           currentHistory in
  save st newHistory.

Definition deleteMultipleHistoryItems (ids : list jsstr) (st : Store B) : Store B :=
  let currentHistory := getHistory st in
  let newHistory := filter (fun item =>
                              match id item with
                              | Some x => negb (existsb (jsstr_eqb x) ids)
                              | None => true
                              end) currentHistory in
  save st newHistory.

End Service.

(** [item.gameMode === GameMode.SentenceCheck]: the enum has no member
    [SentenceCheck], so the right side is [undefined] and the test holds
    exactly when [gameMode] is absent. *)
Definition mainSentence (item : HistoryItem) : option jsstr :=
  match gameMode item with
  | None => userSentence item
  | Some _ => chineseSentence item
  end.

Definition valid (item : HistoryItem) : bool :=
  match id item, timestamp item, mainSentence item with
  | Some _, Some _, Some _ => true
  | _, _, _ => false
  end.

(** The key [`${item.timestamp}-${mainSentence}`]; for integer timestamps the
    template is injective, so the key is the pair. *)
Definition Key := (Z * jsstr)%type.

Definition key (item : HistoryItem) : option Key :=
  match timestamp item, mainSentence item with
  | Some t, Some s => Some (t, s)
  | _, _ => None
  end.

Definition key_eqb (a b : Key) : bool := Z.eqb (fst a) (fst b) && jsstr_eqb (snd a) (snd b).

(** [historyMap], a JavaScript [Map]: entries in insertion order. *)
Definition has (m : list (Key * HistoryItem)) (k : Key) : bool :=
  existsb (fun e => key_eqb (fst e) k) m.

(** One iteration of [for (const item of combinedHistory)]. *)
Definition merge_step (m : list (Key * HistoryItem)) (item : HistoryItem)
    : list (Key * HistoryItem) :=
  if valid item then
    match key item with
    | Some k => if has m k then m else m ++ [(k, item)]
    | None => m
    end
  else m.

Definition ts_of (item : HistoryItem) : Z :=
  match timestamp item with Some t => t | None => 0%Z end.

(** [sort((a, b) => b.timestamp - a.timestamp)]: [Array.prototype.sort] is
    stable, so with a consistent comparator its result is that of a stable
    insertion sort. *)
Fixpoint insert_desc (x : HistoryItem) (l : list HistoryItem) : list HistoryItem :=
  match l with
  | [] => [x]
  | y :: l' => if Z.leb (ts_of x) (ts_of y) then y :: insert_desc x l' else x :: l
  end.

Definition sort_desc (l : list HistoryItem) : list HistoryItem :=
  fold_left (fun acc x => insert_desc x acc) l [].

Definition merged (currentHistory importedHistory : list HistoryItem) : list HistoryItem :=
  let combinedHistory := currentHistory ++ importedHistory in
  let historyMap := fold_left merge_step combinedHistory [] in
  firstn 200 (sort_desc (map snd historyMap)).

(** [mergeAndSaveHistory]: the returned history and the new store. *)
Definition mergeAndSaveHistory (B : Backend) (importedHistory : list HistoryItem)
    (st : Store B) : list HistoryItem * Store B :=
  let currentHistory := getHistory B st in
  let finalHistory := merged currentHistory importedHistory in
  match setItem B st (stringify B finalHistory) with
  | Some st' => (finalHistory, st')
  | None => (getHistory B st, st)
  end.

(** A sequence of calls to the service. *)
Inductive Op :=
| OpGet
| OpAdd (item : HistoryItem)
| OpUpdate (item : HistoryItem)
| OpDelete (i : jsstr)
| OpDeleteMany (ids : list jsstr)
| OpMerge (imported : list HistoryItem).

Definition exec_op (B : Backend) (st : Store B) (op : Op) : Store B :=
  match op with
  | OpGet => st
  | OpAdd it => addHistoryItem B it st
  | OpUpdate it => updateHistoryItem B it st
  | OpDelete i => deleteHistoryItem B i st
  | OpDeleteMany ids => deleteMultipleHistoryItems B ids st
  | OpMerge imp => snd (mergeAndSaveHistory B imp st)
  end.

Definition exec_ops (B : Backend) (ops : list Op) (st : Store B) : Store B :=
  fold_left (exec_op B) ops st.

Definition empty_store (B : Backend) (avail : bool) : Store B :=
  Build_Store avail None.

(** The first valid item of [l] with key [k]. *)
Definition first_with_key (k : Key) (l : list HistoryItem) : option HistoryItem :=
  find (fun it => valid it && match key it with
                              | Some k' => key_eqb k' k
                              | None => false
                              end) l.

Fixpoint sorted_desc (l : list HistoryItem) : Prop :=
  match l with
  | x :: (y :: _) as l' => (ts_of y <= ts_of x)%Z /\ sorted_desc l'
  | _ => True
  end.

End History.

(* ------------------------------------------------------------------ *)
(** ** Concrete backends and items for evaluation *)

Module Samples.
Import JsString History.

(** A store that keeps the list itself, with a quota on the number of
    items it accepts. *)
Definition quota_backend (quota : nat) : Backend :=
  {| V := list HistoryItem;
     stringify := fun h => h;
     parse := fun h => Some h;
     truthy := fun _ => true;
     fits := fun h => Nat.leb (List.length h) quota |}.

(** A store without quota. *)
Definition mem_backend : Backend :=
  {| V := list HistoryItem;
     stringify := fun h => h;
     parse := fun h => Some h;
     truthy := fun _ => true;
     fits := fun _ => true |}.

Definition sample_item (t : Z) (sentence : string) (p : nat) : HistoryItem :=
  {| id := Some (u sentence); timestamp := Some t; gameMode := Some Translation;
     chineseSentence := Some (u sentence); userSentence := Some []; payload := p |}.

End Samples.

(* ------------------------------------------------------------------ *)
(** ** Score colours: [getScoreColors] of [FeedbackDisplay] and
    [getScoreColorClasses] of the history cards *)

Module ScoreColors.
Import JsString.

(** Scores are integers: they come from [parseInt], or from a stored
    feedback that got its score that way. *)
Record Colors := { ring : jsstr; text : jsstr }.

Definition getScoreColors (score : Z) : Colors :=
  if Z.leb 80 score then {| ring := u "ring-green-400"; text := u "text-green-300" |}
  else if Z.leb 50 score then {| ring := u "ring-yellow-400"; text := u "text-yellow-300" |}
  else {| ring := u "ring-red-400"; text := u "text-red-400" |}.

Definition getScoreColorClasses (score : Z) : jsstr :=
  if Z.leb 80 score then u "bg-green-500/20 text-green-300 border-green-500/30"
  else if Z.leb 50 score then u "bg-yellow-500/20 text-yellow-300 border-yellow-500/30"
  else u "bg-red-500/20 text-red-300 border-red-500/30".

End ScoreColors.

(* ------------------------------------------------------------------ *)
(** ** [decode]: [atob] and the byte array *)

Module Base64.
Import JsString.
Local Open Scope N_scope.

(** ASCII whitespace of the HTML standard: TAB, LF, FF, CR, SPACE. *)
Definition is_ascii_ws (c : N) : bool :=
  (c =? 9) || (c =? 10) || (c =? 12) || (c =? 13) || (c =? 32).

(** The value of a character of the base64 alphabet ([A-Z], [a-z], [0-9],
    [+], [/]). *)
Definition b64_value (c : N) : option N :=
  if (65 <=? c) && (c <=? 90) then Some (c - 65)
  else if (97 <=? c) && (c <=? 122) then Some (c - 71)
  else if (48 <=? c) && (c <=? 57) then Some (c + 4)
  else if c =? 43 then Some 62
  else if c =? 47 then Some 63
  else None.

(** When the length is a multiple of 4, one or two trailing ['='] are
    removed. *)
Definition strip_padding (s : jsstr) : jsstr :=
  if Nat.eqb (List.length s mod 4) 0 then
    match rev s with
    | 61 :: 61 :: r => rev r
    | 61 :: r => rev r
    | _ => s
    end
  else s.

(** The six-bit values of the characters; [None] when one is outside the
    alphabet. *)
Fixpoint values (s : jsstr) : option (list N) :=
  match s with
  | [] => Some []
  | c :: s' =>
      match b64_value c, values s' with
      | Some v, Some vs => Some (v :: vs)
      | _, _ => None
      end
  end.

(** The bit buffer of the decoder: six bits are appended per character;
    once it holds 24 bits they are output as three bytes, most significant
    first, and the buffer is emptied. *)
Record Acc := { buf : N; bits : nat; out : list N }.

Definition push (a : Acc) (v : N) : Acc :=
  let b := buf a * 64 + v in
  if Nat.eqb (bits a + 6) 24
  then {| buf := 0; bits := 0; out := out a ++ [b / 65536; (b / 256) mod 256; b mod 256] |}
  else {| buf := b; bits := bits a + 6; out := out a |}.

(** At the end, 12 bits left give one byte (the last 4 bits are dropped)
    and 18 bits give two (the last 2 are dropped). *)
Definition flush (a : Acc) : list N :=
  if Nat.eqb (bits a) 12 then out a ++ [buf a / 16]
  else if Nat.eqb (bits a) 18 then out a ++ [(buf a / 4) / 256; (buf a / 4) mod 256]
  else out a.

Definition acc0 : Acc := {| buf := 0; bits := 0; out := [] |}.

(** [atob(s)], the forgiving-base64 decode of the HTML standard; [None]
    when it throws an InvalidCharacterError. Lengths are counted in code
    units: a string where this differs from the count in code points holds
    a character outside the alphabet and fails either way. *)
Definition atob (s : jsstr) : option jsstr :=
  let data := strip_padding (filter (fun c => negb (is_ascii_ws c)) s) in
  if Nat.eqb (List.length data mod 4) 1 then None
  else match values data with
       | Some vs => Some (flush (fold_left push vs acc0))
       | None => None
       end.

(** [decode(base64)]: [bytes[i] = binaryString.charCodeAt(i)] stored into a
    [Uint8Array] (modulo 256); [None] when [atob] throws. *)
Definition decode (base64 : jsstr) : option (list N) :=
  match atob base64 with
  | Some binaryString => Some (map (fun c => c mod 256) binaryString)
  | None => None
  end.

(** Reference for the statements: the base64 encoding with padding of
    RFC 4648, the form in which the speech API returns the audio. *)
Definition rfc4648_char (v : N) : N :=
  if v <? 26 then 65 + v
  else if v <? 52 then v + 71
  else if v <? 62 then v - 4
  else if v =? 62 then 43 else 47.

Fixpoint rfc4648_encode (bs : list N) : jsstr :=
  match bs with
  | x :: y :: z :: r =>
      let n := x * 65536 + y * 256 + z in
      [rfc4648_char (n / 262144); rfc4648_char ((n / 4096) mod 64);
       rfc4648_char ((n / 64) mod 64); rfc4648_char (n mod 64)] ++ rfc4648_encode r
  | [x; y] =>
      let n := (x * 256 + y) * 4 in
      [rfc4648_char (n / 4096); rfc4648_char ((n / 64) mod 64); rfc4648_char (n mod 64); 61]
  | [x] =>
      let n := x * 16 in
      [rfc4648_char (n / 64); rfc4648_char (n mod 64); 61; 61]
  | [] => []
  end.

End Base64.

(* ------------------------------------------------------------------ *)
(** ** [decodeAudioData] *)

Module Audio.

(** A number held by a [Float32Array]. The samples written are [k / 32768]
    for a 16-bit integer [k], which single precision holds exactly; [NaN] is
    what [undefined / 32768] gives. *)
Inductive num := Num (q : Q) | NaN.

Record AudioBuffer := {
  numberOfChannels : nat;
  length : nat;
  sampleRate : Z;
  channels : list (list num)
}.

(** The elements of [new Int16Array(bytes)], read little-endian (the byte
    order of the platforms browsers run on). *)
Fixpoint int16_le (bs : list N) : list Z :=
  match bs with
  | lo :: hi :: r =>
      let v := Z.of_N (lo + 256 * hi) in
      (if Z.leb 32768 v then (v - 65536)%Z else v) :: int16_le r
  | _ => []
  end.

(** [new Int16Array(data.buffer)]: the buffer of the array [decode]
    returns holds exactly its bytes; an odd byte length throws a
    RangeError ([None]). *)
Definition Int16Array (bs : list N) : option (list Z) :=
  if Nat.even (List.length bs) then Some (int16_le bs) else None.

(** [ta[i] = x] on a typed array: ignored out of range. *)
Fixpoint ta_set {A} (l : list A) (i : nat) (x : A) : list A :=
  match l, i with
  | [], _ => []
  | _ :: l', O => x :: l'
  | y :: l', S i' => y :: ta_set l' i' x
  end.

(** [dataInt16[k] / 32768.0]. *)
Definition sample (ints : list Z) (k : nat) : num :=
  match nth_error ints k with
  | Some v => Num (inject_Z v / inject_Z 32768)
  | None => NaN
  end.

(** [for (let i = 0; i < frameCount; i++) channelData[i] = dataInt16[i *
    numChannels + channel] / 32768.0], where [frameCount] is the real
    quotient [dataInt16.length / numChannels], so that the test is
    [i * numChannels < dataInt16.length]; [fuel] bounds the iterations. *)
Fixpoint fill_channel (ints : list Z) (numChannels channel : nat) (i fuel : nat)
    (channelData : list num) : list num :=
  match fuel with
  | O => channelData
  | S f =>
      if Nat.ltb (i * numChannels) (List.length ints)
      then fill_channel ints numChannels channel (S i) f
             (ta_set channelData i (sample ints (i * numChannels + channel)))
      else channelData
  end.

Section Decode.
(** The limits of the audio context: the largest channel count it
    supports and the sample rates it accepts. *)
Variable max_channels : nat.
Variable rate_supported : Z -> bool.

(** [ctx.createBuffer(numberOfChannels, length, sampleRate)]: throws a
    NotSupportedError ([None]) for no channel, too many channels, a length
    of 0 or an unsupported rate; every channel starts as zeros. *)
Definition createBuffer (nc len : nat) (rate : Z) : option AudioBuffer :=
  if Nat.eqb nc 0 || Nat.ltb max_channels nc || Nat.eqb len 0 || negb (rate_supported rate)
  then None
  else Some {| numberOfChannels := nc; length := len; sampleRate := rate;
               channels := repeat (repeat (Num 0) len) nc |}.

(** [decodeAudioData(data, ctx, sampleRate, numChannels)]; [None] when it
    throws. The [unsigned long] conversion of the length argument
    truncates [frameCount], and turns the [Infinity] or [NaN] of a division
    by 0 into 0. *)
Definition decodeAudioData (data : list N) (rate : Z) (numChannels : nat)
    : option AudioBuffer :=
  match Int16Array data with
  | None => None
  | Some dataInt16 =>
      let frameCount := if Nat.eqb numChannels 0 then O
                        else (List.length dataInt16 / numChannels)%nat in
      match createBuffer numChannels frameCount rate with
      | None => None
      | Some buffer =>
          Some {| numberOfChannels := numberOfChannels buffer;
                  length := length buffer;
                  sampleRate := sampleRate buffer;
                  channels :=
                    map (fun channel =>
                           fill_channel dataInt16 numChannels channel 0
                             (S (List.length dataInt16)) (nth channel (channels buffer) []))
                        (seq 0 numChannels) |}
      end
  end.

End Decode.

(** Reference for the statements: 16-bit signed little-endian PCM, the
    audio format of the speech API. *)
Definition pcm_s16le (samples : list Z) : list N :=
  flat_map (fun v => let w := Z.to_N (if Z.ltb v 0 then v + 65536 else v)%Z in
                     [(w mod 256)%N; (w / 256)%N]) samples.

End Audio.

(* ------------------------------------------------------------------ *)
(** ** [parseJsonResponse] *)

Module JsonResponse.
Import JsString.

Definition fence : jsstr := u "```".
Definition fence_json : jsstr := u "```json".

(** A match of [/^```json\s*|```\s*$/] (no [m] flag) at position [pos], [s]
    being the input from [pos] on; the result is the length matched. The
    first alternative holds only at the start of input, its [\s*] greedy;
    the second when only whitespace follows up to the end of input. *)
Definition fence_at (pos : nat) (s : jsstr) : option nat :=
  if Nat.eqb pos 0 && is_prefix fence_json s
  then Some (7 + List.length (take_while is_ws (skipn 7 s)))
  else if is_prefix fence s && forallb is_ws (skipn 3 s)
  then Some (List.length s)
  else None.

(** [s.replace(re, '')] with the [g] flag: from left to right, each match
    is removed and the search resumes after it (no match is empty); [fuel]
    bounds the steps. *)
Fixpoint replace_go (fuel pos : nat) (s : jsstr) : jsstr :=
  match fuel with
  | O => s
  | S f =>
      match fence_at pos s with
      | Some k => replace_go f (pos + k) (skipn k s)
      | None =>
          match s with
          | [] => []
          | c :: s' => c :: replace_go f (S pos) s'
          end
      end
  end.

Definition strip_fences (s : jsstr) : jsstr := replace_go (S (List.length s)) 0 s.

Section Parse.
Variable T : Type.
(** [JSON.parse] at the expected type; [None] when it throws. *)
Variable json_parse : jsstr -> option T.

(** [parseJsonResponse]: [None] when it throws. *)
Definition parseJsonResponse (jsonString : jsstr) : option T :=
  let cleanedString := trim (strip_fences jsonString) in
  json_parse cleanedString.

End Parse.
End JsonResponse.

(* ------------------------------------------------------------------ *)
(** ** The grammar data cache: [loadGrammarData] and [getGrammarPoints] *)

Module Grammar.
Import JsString.

Inductive Difficulty := N5 | N4 | N3 | N2 | N1.

Record GrammarPoint := {
  level : Difficulty;
  grammar_point : jsstr;
  meaning_cn : jsstr;
  usage : jsstr;
  example_ja : jsstr;
  example_cn : jsstr;
  note : jsstr
}.

(** What [fetch('/doc/jlpt_grammar_full.json')] and [response.json()]
    give when they are called. *)
Inductive FetchResult :=
| FetchFailed                        (* [fetch] rejects *)
| NotOk                              (* [!response.ok] *)
| BadJson                            (* [response.json()] rejects *)
| Loaded (data : list GrammarPoint).

(** [loadGrammarData] on the cache [allGrammarPoints], [r] being what the
    network answers if asked: the new cache, whether it throws, whether it
    fetched. *)
Definition loadGrammarData (allGrammarPoints : list GrammarPoint) (r : FetchResult)
    : list GrammarPoint * bool * bool :=
  if Nat.ltb 0 (List.length allGrammarPoints) then (allGrammarPoints, false, false)
  else match r with
       | Loaded data => (data, false, true)
       | _ => ([], true, true)
       end.

(** [getGrammarPoints]: the result ([None] when it throws), the new cache
    and whether it fetched. *)
Definition getGrammarPoints (allGrammarPoints : list GrammarPoint) (r : FetchResult)
    : option (list GrammarPoint) * list GrammarPoint * bool :=
  let '(cache, threw, fetched) := loadGrammarData allGrammarPoints r in
  (if threw then None else Some cache, cache, fetched).

(** Successive calls, each awaited before the next, from the cache
    [cache]; [rs] gives for each call what the network would answer. *)
Fixpoint calls (cache : list GrammarPoint) (rs : list FetchResult)
    : list (option (list GrammarPoint) * bool) :=
  match rs with
  | [] => []
  | r :: rs' =>
      let '(res, cache', fetched) := getGrammarPoints cache r in
      (res, fetched) :: calls cache' rs'
  end.

(** [p.level === difficulty]. *)
Definition Difficulty_eqb (a b : Difficulty) : bool :=
  match a, b with
  | N5, N5 | N4, N4 | N3, N3 | N2, N2 | N1, N1 => true
  | _, _ => false
  end.

(** [array[i]] for an integer [i]: [undefined] ([None]) out of range. *)
Definition js_index {A} (l : list A) (i : Z) : option A :=
  if Z.ltb i 0 then None else nth_error l (Z.to_nat i).

Definition relevantGrammar (allGrammarPoints : list GrammarPoint) (difficulty : Difficulty)
    : list GrammarPoint :=
  filter (fun p => Difficulty_eqb (level p) difficulty) allGrammarPoints.

(** Rounding to a binary64 number (53-bit significand, ties to even) of a
    non-negative number below [2^1024] given as a count [x] of units
    [2^-1074], the spacing of the subnormal numbers; the result is again a
    count of such units. Below [2^53] units every count is representable
    (subnormal numbers and the first binade of normal ones). *)
Definition round_binary64 (x : Z) : Z :=
  (let s := Z.log2 x - 52 in
   if Z.leb s 0 then x
   else
     let q := x / 2 ^ s in
     let r := x mod 2 ^ s in
     let half := 2 ^ (s - 1) in
     let q' := if Z.ltb half r || (Z.eqb r half && Z.odd q) then q + 1 else q in
     q' * 2 ^ s)%Z.

(** The [grammarPoint] chosen by [generateSentenceTask] and
    [generateMultipleChoiceTask] after [loadGrammarData]. [Math.random()]
    returns the binary64 number [mant * 2^-exp]; the product with the
    length is rounded to binary64 and [Math.floor] takes its integer
    part. *)
Definition grammarPoint (allGrammarPoints : list GrammarPoint) (difficulty : Difficulty)
    (mant exp : Z) : option GrammarPoint :=
  let relevantGrammar := relevantGrammar allGrammarPoints difficulty in
  if Nat.ltb 0 (List.length relevantGrammar)
  then js_index relevantGrammar
         (round_binary64 (mant * 2 ^ (1074 - exp) * Z.of_nat (List.length relevantGrammar))
          / 2 ^ 1074)%Z
  else None.

End Grammar.

(* ------------------------------------------------------------------ *)
(** ** The history kept by [App]: its state and the history handlers *)

Module AppHistory.
Import JsString History.

Section App.
Variable B : Backend.

(** The [history] state of [App] and the store. *)
Record AppState := { history : list HistoryItem; store : Store B }.

(** The [useEffect] run on mount: [setHistory(getHistory())]. *)
Definition mount (st : Store B) : AppState :=
  {| history := getHistory B st; store := st |}.

Inductive AppEvent :=
| ImportHistory (importedData : list HistoryItem)     (* handleImportHistory *)
| DeleteHistoryItem (i : jsstr)                      (* handleDeleteHistoryItem *)
| DeleteMultipleHistoryItems (ids : list jsstr)      (* handleDeleteMultipleHistoryItems *)
| UpdateHistoryItem (updatedItem : HistoryItem)      (* handleUpdateHistoryItem *)
| Complete (newHistoryItem : HistoryItem).           (* handleTranslationComplete, handleMcqComplete *)

Definition app_step (s : AppState) (e : AppEvent) : AppState :=
  match e with
  | ImportHistory importedData =>
      let '(mergedHistory, st') := mergeAndSaveHistory B importedData (store s) in
      {| history := mergedHistory; store := st' |}
  | DeleteHistoryItem i =>
      {| history := filter (fun item => negb (opt_jsstr_eqb (id item) (Some i))) (history s);
         store := deleteHistoryItem B i (store s) |}
  | DeleteMultipleHistoryItems ids =>
      {| history := filter (fun item =>
                              match id item with
                              | Some x => negb (existsb (jsstr_eqb x) ids)
                              | None => true
                              end) (history s);
         store := deleteMultipleHistoryItems B ids (store s) |}
  | UpdateHistoryItem updatedItem =>
      {| history := map (fun item =>
                           if opt_jsstr_eqb (id item) (id updatedItem)
                           then updatedItem else item) (history s);
         store := updateHistoryItem B updatedItem (store s) |}
  | Complete newHistoryItem =>
      {| history := newHistoryItem :: history s;
         store := addHistoryItem B newHistoryItem (store s) |}
  end.

End App.
End AppHistory.

(* ------------------------------------------------------------------ *)
(** ** [MultipleChoiceScreen]: answering *)

Module Mcq.
Import JsString.

(** [selectedOptionIndex] and the calls of [onComplete] (their first
    argument). Each event is handled after the re-render caused by the
    previous one. *)
Record McqState := { selectedOptionIndex : option nat; completed : list Z }.

Inductive McqEvent :=
| ClickOption (index : nat)   (* handleOptionClick *)
| ShowAnswer.                 (* the button "不确定？点击查看答案" *)

Definition mcq_init : McqState := {| selectedOptionIndex := None; completed := [] |}.

(** The answer button is rendered only while no option is selected. *)
Definition mcq_step (correctOptionIndex : nat) (s : McqState) (e : McqEvent) : McqState :=
  match e with
  | ClickOption index =>
      match selectedOptionIndex s with
      | None => {| selectedOptionIndex := Some index;
                   completed := completed s ++ [Z.of_nat index] |}
      | Some _ => s
      end
  | ShowAnswer =>
      match selectedOptionIndex s with
      | None => {| selectedOptionIndex := Some correctOptionIndex;
                   completed := completed s ++ [(-1)%Z] |}
      | Some _ => s
      end
  end.

Definition mcq_run (correctOptionIndex : nat) (evs : list McqEvent) : McqState :=
  fold_left (mcq_step correctOptionIndex) evs mcq_init.

(** [getButtonClass index], given [task.correctOptionIndex] and the state
    [selectedOptionIndex]. *)
Definition getButtonClass (correctOptionIndex : nat) (selectedOptionIndex : option nat)
    (index : nat) : jsstr :=
  match selectedOptionIndex with
  | None => u "bg-slate-700/50 border-slate-600 hover:bg-slate-600/50 hover:border-blue-500"
  | Some selected =>
      let isCorrect := Nat.eqb index correctOptionIndex in
      let isSelected := Nat.eqb index selected in
      if isCorrect then u "bg-green-800/60 border-green-500 text-white"
      else if isSelected && negb isCorrect then u "bg-red-800/60 border-red-500 text-white"
      else u "bg-slate-800/50 border-slate-700 text-slate-400 opacity-70"
  end.

End Mcq.

(* ------------------------------------------------------------------ *)
(** ** [HistoryScreen]: selecting items *)

Module Selection.
Import JsString History.

(** A JavaScript [Set] of ids: its elements in insertion order, without
    repetition. *)
Definition set_has (s : list (option jsstr)) (x : option jsstr) : bool :=
  existsb (opt_jsstr_eqb x) s.

Definition set_add (s : list (option jsstr)) (x : option jsstr) : list (option jsstr) :=
  if set_has s x then s else s ++ [x].

Definition set_delete (s : list (option jsstr)) (x : option jsstr) : list (option jsstr) :=
  filter (fun y => negb (opt_jsstr_eqb x y)) s.

(** [new Set(l)]. *)
Definition set_of (l : list (option jsstr)) : list (option jsstr) :=
  fold_left set_add l [].

Definition handleToggleItemSelection (selectedIds : list (option jsstr)) (i : option jsstr)
    : list (option jsstr) :=
  if set_has selectedIds i then set_delete selectedIds i else set_add selectedIds i.

Definition handleSelectAll (history : list HistoryItem) (selectedIds : list (option jsstr))
    : list (option jsstr) :=
  if Nat.eqb (List.length selectedIds) (List.length history) then []
  else set_of (map id history).

End Selection.

(* ------------------------------------------------------------------ *)
(** ** [PracticeScreen]: submitting a translation *)

Module Practice.
Import JsString.

(** [handleSubmit]: the argument of [onCheck], [None] when it is not
    called. *)
Definition handleSubmit (sentence : jsstr) : option jsstr :=
  match trim sentence with
  | [] => None
  | _ :: _ => Some (trim sentence)
  end.

End Practice.

(* ================================================================== *)
(** * Proofs *)

Module StringFacts.
Import JsString.

Lemma is_prefix_app (p s r : jsstr) :
  is_prefix p s = true -> is_prefix p (s ++ r) = true.
Proof.
  revert s; induction p as [|x p IH]; intros [|y s] H; simpl in *; try easy.
  apply andb_prop in H as [H1 H2]. rewrite H1, (IH _ H2). reflexivity.
Qed.

Lemma is_prefix_length (p s : jsstr) :
  is_prefix p s = true -> List.length p <= List.length s.
Proof.
  revert s; induction p as [|x p IH]; intros [|y s] H; simpl in *; try easy; try lia.
  apply andb_prop in H as [_ H2]. specialize (IH _ H2). lia.
Qed.

Lemma is_prefix_app_false (p s r : jsstr) :
  is_prefix p s = false -> List.length p <= List.length s ->
  is_prefix p (s ++ r) = false.
Proof.
  revert s; induction p as [|x p IH]; intros [|y s] H Hl; simpl in *; try easy; try lia.
  destruct (x =? y)%N; simpl in *; [apply IH; auto; lia | reflexivity].
Qed.

Lemma index_of_bound (p s : jsstr) (i : nat) :
  index_of p s = Some i -> i + List.length p <= List.length s.
Proof.
  revert i; induction s as [|c s IH]; intros i H; simpl in H.
  - destruct (is_prefix p []) eqn:E; inversion H; subst.
    apply is_prefix_length in E. simpl in *. lia.
  - destruct (is_prefix p (c :: s)) eqn:E.
    + inversion H; subst. apply is_prefix_length in E. simpl in *. lia.
    + destruct (index_of p s) as [j|] eqn:Ej; simpl in H; inversion H; subst.
      specialize (IH j eq_refl). simpl. lia.
Qed.

Lemma index_of_prefix (p s : jsstr) : is_prefix p s = true -> index_of p s = Some 0.
Proof. destruct s; simpl; intros H; rewrite H; reflexivity. Qed.

(** A match found in a prefix of the text is the first match of the text. *)
Lemma index_of_app (p s r : jsstr) (i : nat) :
  index_of p s = Some i -> index_of p (s ++ r) = Some i.
Proof.
  revert i; induction s as [|c s IH]; intros i H.
  - simpl in H. destruct (is_prefix p []) eqn:E; inversion H; subst.
    apply index_of_prefix. exact (is_prefix_app p [] r E).
  - pose proof (index_of_bound _ _ _ H) as Hb.
    simpl in H |- *. destruct (is_prefix p (c :: s)) eqn:E.
    + pose proof (is_prefix_app p (c :: s) r E) as E'. simpl in E'.
      rewrite E'. exact H.
    + assert (E' : is_prefix p ((c :: s) ++ r) = false)
        by (apply is_prefix_app_false; [exact E | simpl in *; lia]).
      simpl in E'. rewrite E'.
      destruct (index_of p s) as [j|] eqn:Ej; simpl in H; inversion H; subst.
      rewrite (IH j eq_refl). reflexivity.
Qed.

End StringFacts.

Module StreamFacts.
Import JsString Regex Stream StringFacts.

Definition nonempty (t : jsstr) : bool :=
  match t with [] => false | _ :: _ => true end.

Lemma concat_filter_nonempty (cs : list jsstr) :
  List.concat (filter nonempty cs) = List.concat cs.
Proof.
  induction cs as [|[|x c] cs IH]; simpl; auto. rewrite IH. reflexivity.
Qed.

Lemma structured_app (a b : list Event) :
  structured (a ++ b) = structured a ++ structured b.
Proof. induction a as [|[] a IH]; simpl; rewrite ?IH; reflexivity. Qed.

Lemma explanations_app (a b : list Event) :
  explanations (a ++ b) = explanations a ++ explanations b.
Proof. induction a as [|[] a IH]; simpl; rewrite ?IH; reflexivity. Qed.

Lemma structured_expl (l : list jsstr) :
  structured (map OnExplanationChunk l) = [].
Proof. induction l; simpl; auto. Qed.

Lemma explanations_expl (l : list jsstr) :
  explanations (map OnExplanationChunk l) = l.
Proof. induction l; simpl; f_equal; auto. Qed.

(** Once the headers are parsed, every non-empty chunk is forwarded. *)
Lemma loop_parsed (cs : list jsstr) (b : jsstr) (ev : list Event) :
  fold_left chunk_step cs {| buffer := b; headersParsed := true; emitted := ev |}
  = {| buffer := b; headersParsed := true;
       emitted := ev ++ map OnExplanationChunk (filter nonempty cs) |}.
Proof.
  revert ev; induction cs as [|[|x c] cs IH]; intros ev; simpl.
  - rewrite app_nil_r. reflexivity.
  - apply IH.
  - rewrite IH, <- app_assoc. reflexivity.
Qed.

Lemma step_unparsed (b c : jsstr) :
  nonempty c = true ->
  chunk_step {| buffer := b; headersParsed := false; emitted := [] |} c
  = match index_of separator (b ++ c) with
    | Some i =>
        {| buffer := b ++ c; headersParsed := true;
           emitted := [OnStructuredData (parse_header (substring_to (b ++ c) i))]
                      ++ (match substring_from (b ++ c) (i + List.length separator) with
                          | [] => []
                          | _ :: _ => [OnExplanationChunk
                                         (substring_from (b ++ c) (i + List.length separator))]
                          end) |}
    | None => {| buffer := b ++ c; headersParsed := false; emitted := [] |}
    end.
Proof. destruct c; [discriminate | reflexivity]. Qed.

(** The loop before the separator is seen: either no separator is in the
    whole text and the buffer is that text, or the headers come from the
    text before its first separator and the forwarded chunks spell the text
    after it. *)
Lemma loop_unparsed (cs : list jsstr) (b : jsstr) :
  index_of separator b = None ->
  let st := fold_left chunk_step cs {| buffer := b; headersParsed := false; emitted := [] |} in
  let T := b ++ List.concat cs in
  match index_of separator T with
  | None => st = {| buffer := T; headersParsed := false; emitted := [] |}
  | Some i =>
      headersParsed st = true /\
      exists L, emitted st = OnStructuredData (parse_header (substring_to T i))
                             :: map OnExplanationChunk L
             /\ List.concat L = substring_from T (i + List.length separator)
  end.
Proof.
  revert b; induction cs as [|c cs IH]; intros b Hb.
  - cbn [fold_left List.concat]. rewrite app_nil_r, Hb. reflexivity.
  - cbn [fold_left List.concat]. destruct (nonempty c) eqn:Hne.
    2:{ destruct c; [|discriminate]. apply IH; exact Hb. }
    rewrite (step_unparsed b c Hne), app_assoc.
    destruct (index_of separator (b ++ c)) as [i|] eqn:Ei.
    + rewrite (index_of_app _ _ _ _ Ei).
      pose proof (index_of_bound _ _ _ Ei) as Hbound.
      rewrite loop_parsed. split; [reflexivity|].
      set (buf := b ++ c) in *.
      set (fc := substring_from buf (i + List.length separator)).
      exists ((match fc with [] => [] | _ :: _ => [fc] end) ++ filter nonempty cs).
      split.
      * cbn [emitted]. unfold substring_to. rewrite firstn_app.
        replace (i - List.length buf) with 0 by lia. rewrite firstn_O, app_nil_r.
        rewrite map_app. destruct fc; reflexivity.
      * rewrite concat_app, concat_filter_nonempty. unfold substring_from.
        rewrite skipn_app. replace (i + List.length separator - List.length buf) with 0 by lia.
        rewrite skipn_O. f_equal. unfold fc, substring_from.
        destruct (skipn (i + List.length separator) buf); simpl; rewrite ?app_nil_r; reflexivity.
    + apply IH. exact Ei.
Qed.

Lemma run_loop_cases (chunks : list jsstr) :
  let st := run_loop chunks in
  let T := List.concat chunks in
  match index_of separator T with
  | None => st = {| buffer := T; headersParsed := false; emitted := [] |}
  | Some i =>
      headersParsed st = true /\
      exists L, emitted st = OnStructuredData (parse_header (substring_to T i))
                             :: map OnExplanationChunk L
             /\ List.concat L = substring_from T (i + List.length separator)
  end.
Proof. exact (loop_unparsed chunks [] eq_refl). Qed.

Lemma fallback_parsed (st : LoopState) :
  headersParsed st = true -> fallback st = [].
Proof. intros H. unfold fallback. rewrite H. reflexivity. Qed.

Lemma run_unfold (chunks : list jsstr) (fails : bool) :
  evaluateSentenceStream chunks fails
  = emitted (run_loop chunks)
    ++ (if fails then [OnExplanationChunk error_message; OnStreamEnd]
        else fallback (run_loop chunks) ++ [OnStreamEnd]).
Proof.
  unfold evaluateSentenceStream, try_block. destruct fails; rewrite <- ?app_assoc; reflexivity.
Qed.

(** The fallback on a buffer without separator. *)
Lemma fallback_no_separator (T : jsstr) :
  index_of separator T = None -> T <> [] ->
  fallback {| buffer := T; headersParsed := false; emitted := [] |}
  = OnStructuredData (parse_header T)
    :: (match guess_explanation T with
        | [] => []
        | _ :: _ => [OnExplanationChunk (guess_explanation T)]
        end).
Proof.
  intros Hn Hne. unfold fallback. cbn [headersParsed buffer].
  destruct T as [|x T']; [congruence|]. simpl negb. rewrite Hn. reflexivity.
Qed.

Lemma concat_nonempty (cs : list jsstr) (c : jsstr) :
  In c cs -> c <> [] -> List.concat cs <> [].
Proof.
  induction cs as [|c' cs IH]; simpl; [tauto|].
  intros [<-|Hin] Hc Habs; apply app_eq_nil in Habs as [H1 H2]; [congruence|].
  exact (IH Hin Hc H2).
Qed.

Ltac no_stream_end :=
  repeat match goal with
         | |- context [match ?x with [] => _ | _ :: _ => _ end] => destruct x
         end;
  cbn [emitted]; rewrite ?in_app_iff; simpl; intuition discriminate.

Lemma step_no_end (st : LoopState) (c : jsstr) :
  ~ In OnStreamEnd (emitted st) -> ~ In OnStreamEnd (emitted (chunk_step st c)).
Proof.
  intros H. unfold chunk_step. destruct c as [|x c]; [exact H|].
  destruct (headersParsed st); [|destruct (index_of separator (buffer st ++ x :: c))];
    no_stream_end.
Qed.

Lemma loop_no_end (cs : list jsstr) (st : LoopState) :
  ~ In OnStreamEnd (emitted st) -> ~ In OnStreamEnd (emitted (fold_left chunk_step cs st)).
Proof.
  revert st; induction cs as [|c cs IH]; intros st H; simpl; [exact H|].
  apply IH, step_no_end, H.
Qed.

Lemma fallback_no_end (st : LoopState) : ~ In OnStreamEnd (fallback st).
Proof.
  unfold fallback. destruct (negb (headersParsed st) && _); [|simpl; tauto].
  destruct (index_of separator (buffer st)); no_stream_end.
Qed.

End StreamFacts.

Module StreamClaims.
Import JsString Regex Stream StringFacts StreamFacts.

(** C1: when the whole stream text contains the separator, the structured
    data is parsed once from the text before its first occurrence and the
    explanation chunks spell exactly the text after it (later separators
    included). *)
Theorem delimited_parse (chunks : list jsstr) (i : nat)
    (H : index_of separator (List.concat chunks) = Some i) :
  structured (evaluateSentenceStream chunks false)
    = [parse_header (substring_to (List.concat chunks) i)]
  /\ explanation_text (evaluateSentenceStream chunks false)
    = substring_from (List.concat chunks) (i + List.length separator).
Proof.
  pose proof (run_loop_cases chunks) as Hc. cbv zeta in Hc. rewrite H in Hc.
  destruct Hc as [Hp [L [He Hcat]]].
  rewrite run_unfold, fallback_parsed by exact Hp. rewrite He.
  unfold explanation_text. cbn [structured explanations app].
  rewrite structured_app, explanations_app, structured_expl, explanations_expl.
  cbn [structured explanations]. rewrite !app_nil_r, Hcat. split; reflexivity.
Qed.

Lemma delimited_parse_witness :
  index_of separator (List.concat [u "score: 9"; [10%N; 45%N]; u "-- "; [10%N]; u "ok"])
    = Some 8
  /\ explanation_text
       (evaluateSentenceStream [u "score: 9"; [10%N; 45%N]; u "-- "; [10%N]; u "ok"] false)
     = u "ok".
Proof.
  split; [vm_compute; reflexivity|].
  rewrite (proj2 (delimited_parse [u "score: 9"; [10%N; 45%N]; u "-- "; [10%N]; u "ok"] 8
                    ltac:(vm_compute; reflexivity))).
  vm_compute. reflexivity.
Defined.

(** C2: the parse depends only on the concatenated stream text, not on the
    chunk boundaries (a separator may be split across chunks). *)
Theorem chunking_invariant (cs1 cs2 : list jsstr) (fails : bool)
    (H : List.concat cs1 = List.concat cs2) :
  structured (evaluateSentenceStream cs1 fails) = structured (evaluateSentenceStream cs2 fails)
  /\ explanation_text (evaluateSentenceStream cs1 fails)
     = explanation_text (evaluateSentenceStream cs2 fails).
Proof.
  pose proof (run_loop_cases cs1) as H1. pose proof (run_loop_cases cs2) as H2.
  cbv zeta in H1, H2. rewrite <- H in H2.
  destruct (index_of separator (List.concat cs1)) as [i|].
  - destruct H1 as [Hp1 [L1 [He1 Hc1]]]. destruct H2 as [Hp2 [L2 [He2 Hc2]]].
    rewrite !run_unfold, (fallback_parsed _ Hp1), (fallback_parsed _ Hp2), He1, He2.
    unfold explanation_text. cbn [structured explanations app].
    rewrite !structured_app, !explanations_app, !structured_expl, !explanations_expl.
    split; [reflexivity|]. rewrite !concat_app, Hc1, Hc2. reflexivity.
  - rewrite !run_unfold. unfold run_loop in *. rewrite H1, H2. split; reflexivity.
Qed.

Lemma chunking_invariant_witness :
  List.concat [u "score: 5"; [10%N; 45%N; 45%N]; u "- "; [10%N]; u "x"]
    = List.concat [u "score: 5"; separator; u "x"]
  /\ structured (evaluateSentenceStream [u "score: 5"; [10%N; 45%N; 45%N]; u "- "; [10%N]; u "x"] false)
     = structured (evaluateSentenceStream [u "score: 5"; separator; u "x"] false).
Proof.
  assert (Hc : List.concat [u "score: 5"; [10%N; 45%N; 45%N]; u "- "; [10%N]; u "x"]
               = List.concat [u "score: 5"; separator; u "x"]) by (vm_compute; reflexivity).
  split; [exact Hc|]. exact (proj1 (chunking_invariant _ _ false Hc)).
Defined.

(** C3: without any separator in a non-empty stream, the fields come from
    the whole text and the explanation is the trimmed join of the lines
    after the first line starting with "correctedSentence:"; when there is
    no such line, or it is the last line, no explanation is sent. *)
Theorem fallback_parse (chunks : list jsstr)
    (Hn : index_of separator (List.concat chunks) = None)
    (Hne : List.concat chunks <> []) :
  let T := List.concat chunks in
  let lines := split_nl T in
  let ev := evaluateSentenceStream chunks false in
  structured ev = [parse_header T]
  /\ (forall k, find_index (is_prefix (u "correctedSentence:")) lines = Some k ->
        k + 1 < List.length lines ->
        explanation_text ev = trim (join_nl (skipn (k + 1) lines)))
  /\ ((find_index (is_prefix (u "correctedSentence:")) lines = None
       \/ exists k, find_index (is_prefix (u "correctedSentence:")) lines = Some k
                    /\ k + 1 = List.length lines) ->
      explanations ev = []).
Proof.
  pose proof (run_loop_cases chunks) as Hc. cbv zeta in Hc |- *. rewrite Hn in Hc.
  rewrite run_unfold, Hc, fallback_no_separator by assumption. cbn [emitted app].
  unfold explanation_text.
  assert (Hg : forall g : jsstr,
             structured (OnStructuredData (parse_header (List.concat chunks))
                           :: match g with [] => [] | _ :: _ => [OnExplanationChunk g] end
                           ++ [OnStreamEnd]) = [parse_header (List.concat chunks)]
             /\ List.concat (explanations (OnStructuredData (parse_header (List.concat chunks))
                           :: match g with [] => [] | _ :: _ => [OnExplanationChunk g] end
                           ++ [OnStreamEnd])) = g)
    by (intros [|x g]; simpl; rewrite ?app_nil_r; split; reflexivity).
  split; [exact (proj1 (Hg _))|]. split.
  - intros k Hk Hlt. rewrite (proj2 (Hg _)). unfold guess_explanation.
    rewrite Hk. apply Nat.ltb_lt in Hlt. rewrite Hlt. reflexivity.
  - intros Hcase. unfold guess_explanation.
    destruct Hcase as [Hk | [k [Hk Heq]]]; rewrite Hk; [reflexivity|].
    replace (Nat.ltb (k + 1) (List.length (split_nl (List.concat chunks)))) with false
      by (symmetry; apply Nat.ltb_ge; lia).
    reflexivity.
Qed.

Lemma fallback_parse_witness :
  index_of separator (List.concat [u "score: 1"; [10%N]; u "correctedSentence: A"; [10%N]; u " tail "])
    = None
  /\ explanation_text
       (evaluateSentenceStream [u "score: 1"; [10%N]; u "correctedSentence: A"; [10%N]; u " tail "] false)
     = u "tail".
Proof.
  split; [vm_compute; reflexivity|].
  rewrite (proj1 (proj2 (fallback_parse
             [u "score: 1"; [10%N]; u "correctedSentence: A"; [10%N]; u " tail "]
             ltac:(vm_compute; reflexivity) ltac:(vm_compute; congruence))) 1
             ltac:(vm_compute; reflexivity) ltac:(vm_compute; lia)).
  vm_compute. reflexivity.
Defined.

(** C5: a run without error over a stream with some non-empty chunk calls
    onStructuredData exactly once, before every explanation chunk; when a
    separator is present the explanation chunks spell only the text after
    it, never header text. *)
Theorem header_before_explanation (chunks : list jsstr)
    (Hc : exists c, In c chunks /\ c <> []) :
  exists d L,
    evaluateSentenceStream chunks false
      = OnStructuredData d :: map OnExplanationChunk L ++ [OnStreamEnd]
    /\ (forall i, index_of separator (List.concat chunks) = Some i ->
          d = parse_header (substring_to (List.concat chunks) i)
          /\ List.concat L = substring_from (List.concat chunks) (i + List.length separator)).
Proof.
  destruct Hc as [c [Hin Hne]].
  pose proof (concat_nonempty _ _ Hin Hne) as HT.
  pose proof (run_loop_cases chunks) as Hr. cbv zeta in Hr.
  rewrite run_unfold.
  destruct (index_of separator (List.concat chunks)) as [i|] eqn:Ei.
  - destruct Hr as [Hp [L [He Hcat]]].
    exists (parse_header (substring_to (List.concat chunks) i)), L.
    rewrite (fallback_parsed _ Hp), He. split; [reflexivity|].
    intros j Hj. inversion Hj; subst. split; [reflexivity|exact Hcat].
  - rewrite Hr, fallback_no_separator by assumption.
    exists (parse_header (List.concat chunks)),
      (match guess_explanation (List.concat chunks) with
       | [] => [] | _ :: _ => [guess_explanation (List.concat chunks)] end).
    split; [|intros j Hj; discriminate].
    destruct (guess_explanation (List.concat chunks)); reflexivity.
Qed.

Lemma header_before_explanation_witness :
  (exists c, In c [u "evaluation: ok"; []] /\ c <> [])
  /\ exists d L,
    evaluateSentenceStream [u "evaluation: ok"; []] false
      = OnStructuredData d :: map OnExplanationChunk L ++ [OnStreamEnd].
Proof.
  assert (Hc : exists c, In c [u "evaluation: ok"; []] /\ c <> [])
    by (exists (u "evaluation: ok"); split; [left; reflexivity | vm_compute; congruence]).
  split; [exact Hc|].
  destruct (header_before_explanation _ Hc) as [d [L [He _]]].
  exists d, L. exact He.
Defined.

(** C6: an error of the model stream never escapes: the catch block sends
    the fixed error text, and onStreamEnd is called exactly once, last, on
    every path. *)
Theorem stream_errors_caught (chunks : list jsstr) :
  (exists pre,
     evaluateSentenceStream chunks true
       = pre ++ [OnExplanationChunk error_message; OnStreamEnd]
     /\ pre = emitted (run_loop chunks)
     /\ ~ In OnStreamEnd pre)
  /\ (forall fails, exists pre,
        evaluateSentenceStream chunks fails = pre ++ [OnStreamEnd]
        /\ ~ In OnStreamEnd pre).
Proof.
  assert (Hl : ~ In OnStreamEnd (emitted (run_loop chunks)))
    by (apply loop_no_end; simpl; tauto).
  split.
  - exists (emitted (run_loop chunks)). rewrite run_unfold. auto.
  - intros [|].
    + exists (emitted (run_loop chunks) ++ [OnExplanationChunk error_message]).
      rewrite run_unfold, <- app_assoc. split; [reflexivity|].
      rewrite in_app_iff. simpl. intuition discriminate.
    + exists (emitted (run_loop chunks) ++ fallback (run_loop chunks)).
      rewrite run_unfold, <- app_assoc. split; [reflexivity|].
      rewrite in_app_iff. pose proof (fallback_no_end (run_loop chunks)). tauto.
Qed.

(** C10: when the loop ends with the headers unparsed, the buffer is the
    whole stream text and holds no separator, so the fallback never takes
    its "text after the separator" branch. *)
Theorem unparsed_buffer_has_no_separator (chunks : list jsstr)
    (H : headersParsed (run_loop chunks) = false) :
  buffer (run_loop chunks) = List.concat chunks
  /\ index_of separator (buffer (run_loop chunks)) = None
  /\ fallback (run_loop chunks)
     = match List.concat chunks with
       | [] => []
       | _ :: _ =>
           OnStructuredData (parse_header (List.concat chunks))
           :: (match guess_explanation (List.concat chunks) with
               | [] => []
               | _ :: _ => [OnExplanationChunk (guess_explanation (List.concat chunks))]
               end)
       end.
Proof.
  pose proof (run_loop_cases chunks) as Hr. cbv zeta in Hr.
  destruct (index_of separator (List.concat chunks)) as [i|] eqn:Ei.
  - destruct Hr as [Hp _]. congruence.
  - rewrite Hr. cbn [buffer]. split; [reflexivity|]. split; [exact Ei|].
    destruct (List.concat chunks) as [|x T] eqn:ET; [reflexivity|].
    apply fallback_no_separator; [exact Ei | congruence].
Qed.

Lemma unparsed_buffer_has_no_separator_witness :
  headersParsed (run_loop [u "score: 3"; [10%N]; u "---"]) = false
  /\ index_of separator (buffer (run_loop [u "score: 3"; [10%N]; u "---"])) = None.
Proof.
  assert (H : headersParsed (run_loop [u "score: 3"; [10%N]; u "---"]) = false)
    by (vm_compute; reflexivity).
  split; [exact H|]. exact (proj1 (proj2 (unparsed_buffer_has_no_separator _ H))).
Defined.

End StreamClaims.

Module RegexFacts.
Import JsString Regex Stream HeaderReading.
Local Open Scope N_scope.

Lemma drop_ws_drop_while (s : jsstr) : drop_ws s = drop_while is_ws s.
Proof. induction s as [|c s IH]; simpl; [reflexivity|]. destruct (is_ws c); auto. Qed.

Section Star.
Context {A : Type} (cls : N -> bool) (k : option N -> jsstr -> jsstr -> option A).
Hypothesis k_indep : forall p p' s a, k p s a = k p' s a.

(** Greedy repetition: when the continuation accepts the longest run, that
    is the result. *)
Lemma star_greedy (prev : option N) (s acc : jsstr) (r : A) :
  k prev (drop_while cls s) (acc ++ take_while cls s) = Some r ->
  star cls k prev s acc = Some r.
Proof.
  revert prev acc; induction s as [|x s IH]; intros prev acc H; simpl in *.
  - rewrite app_nil_r in H. exact H.
  - destruct (cls x).
    + rewrite (IH (Some x) (acc ++ [x])); [reflexivity|].
      rewrite <- app_assoc. simpl. rewrite (k_indep _ prev). exact H.
    + rewrite app_nil_r in H. exact H.
Qed.

(** When the continuation rejects every text starting with a repeated
    character, backtracking never helps: the result is that of the longest
    run. *)
Lemma star_max (prev : option N) (s acc : jsstr) :
  (forall p x s'' a, cls x = true -> k p (x :: s'') a = None) ->
  star cls k prev s acc = k prev (drop_while cls s) (acc ++ take_while cls s).
Proof.
  intros Hrej. revert prev acc; induction s as [|x s IH]; intros prev acc; simpl.
  - rewrite app_nil_r. reflexivity.
  - destruct (cls x) eqn:Hx.
    + rewrite IH, <- app_assoc. simpl. rewrite (k_indep _ prev).
      destruct (k prev (drop_while cls s) (acc ++ x :: take_while cls s)); [reflexivity|].
      apply Hrej, Hx.
    + rewrite app_nil_r. reflexivity.
Qed.

End Star.

Lemma m_capstar_end (cls : N -> bool) (prev : option N) (s : jsstr) (cap : option jsstr) :
  m [ACapStar cls] prev s cap = Some (Some (take_while cls s)).
Proof. simpl. apply star_greedy; reflexivity. Qed.

Lemma m_capplus_end (cls : N -> bool) (prev : option N) (s : jsstr) (cap : option jsstr) :
  m [ACapPlus cls] prev s cap
  = match s with
    | x :: _ => if cls x then Some (Some (take_while cls s)) else None
    | [] => None
    end.
Proof.
  destruct s as [|x s]; simpl; [reflexivity|].
  destruct (cls x) eqn:Hx; [|reflexivity].
  apply star_greedy; reflexivity.
Qed.

Lemma digit_not_ws (c : N) : is_ws c = true -> is_digit c = false.
Proof.
  intros Hw. destruct (is_digit c) eqn:Hd; [|reflexivity].
  unfold is_digit in Hd. apply andb_prop in Hd as [H1 H2].
  apply N.leb_le in H1. apply N.leb_le in H2.
  unfold is_ws in Hw. exfalso. revert Hw.
  repeat rewrite orb_true_iff.
  rewrite andb_true_iff, !N.eqb_eq, !N.leb_le. lia.
Qed.

Lemma m_ws_dotstar (prev : option N) (s : jsstr) (cap : option jsstr) :
  m [AStar is_ws; ACapStar not_lt] prev s cap
  = Some (Some (take_while not_lt (drop_while is_ws s))).
Proof.
  change (star is_ws (fun p s' _ => m [ACapStar not_lt] p s' cap) prev s []
          = Some (Some (take_while not_lt (drop_while is_ws s)))).
  apply star_greedy.
  - intros. rewrite !m_capstar_end. reflexivity.
  - apply m_capstar_end.
Qed.

Lemma m_ws_digits (prev : option N) (s : jsstr) (cap : option jsstr) :
  m [AStar is_ws; ACapPlus is_digit] prev s cap
  = if starts_with_digit (drop_while is_ws s)
    then Some (Some (take_while is_digit (drop_while is_ws s))) else None.
Proof.
  change (star is_ws (fun p s' _ => m [ACapPlus is_digit] p s' cap) prev s []
          = if starts_with_digit (drop_while is_ws s)
            then Some (Some (take_while is_digit (drop_while is_ws s))) else None).
  rewrite star_max.
  - change (m [ACapPlus is_digit] prev (drop_while is_ws s) cap
            = if starts_with_digit (drop_while is_ws s)
              then Some (Some (take_while is_digit (drop_while is_ws s))) else None).
    rewrite m_capplus_end. destruct (drop_while is_ws s) as [|x r]; reflexivity.
  - intros. change (m [ACapPlus is_digit] p s0 cap = m [ACapPlus is_digit] p' s0 cap).
    rewrite !m_capplus_end. reflexivity.
  - intros p x s'' a Hx. change (m [ACapPlus is_digit] p (x :: s'') cap = None).
    rewrite m_capplus_end, (digit_not_ws x Hx). reflexivity.
Qed.

Lemma m_lits (name : jsstr) (r : list atom) (prev : option N) (s : jsstr) (cap : option jsstr) :
  (forall p p' s c, m r p s c = m r p' s c) ->
  m (lits name ++ r) prev s cap
  = if is_prefix name s then m r prev (skipn (List.length name) s) cap else None.
Proof.
  intros Hr. revert prev s; induction name as [|x name IH]; intros prev s; [reflexivity|].
  destruct s as [|y s]; [reflexivity|].
  cbn [lits map app m is_prefix]. rewrite N.eqb_sym.
  destruct (x =? y); [|reflexivity]. rewrite IH. simpl.
  destruct (is_prefix name s); [apply Hr | reflexivity].
Qed.

Lemma search_first (pat : list atom) (P : jsstr -> bool) (G : jsstr -> jsstr) :
  (forall prev s, m pat prev s None
                  = if line_start prev && P s then Some (Some (G s)) else None) ->
  forall prev s, search pat prev s
                 = match first_line_where P prev s with
                   | Some l => Some (Some (G l))
                   | None => None
                   end.
Proof.
  intros Hm prev s. revert prev; induction s as [|x s IH]; intros prev; simpl; rewrite Hm;
    destruct (line_start prev && P _); try reflexivity.
  apply IH.
Qed.

Lemma m_label_re (name : jsstr) (prev : option N) (s : jsstr) :
  m (ABol :: lits name ++ [AStar is_ws; ACapStar not_lt]) prev s None
  = if line_start prev && is_prefix name s
    then Some (Some (take_while not_lt (drop_ws (skipn (List.length name) s))))
    else None.
Proof.
  cbn [m]. destruct (line_start prev); [|reflexivity]. simpl andb.
  rewrite m_lits by (intros; rewrite !m_ws_dotstar; reflexivity).
  destruct (is_prefix name s); [|reflexivity].
  rewrite m_ws_dotstar, drop_ws_drop_while. reflexivity.
Qed.

Lemma m_label_digits (name : jsstr) (prev : option N) (s : jsstr) :
  m (ABol :: lits name ++ [AStar is_ws; ACapPlus is_digit]) prev s None
  = if line_start prev && is_prefix name s
    then if starts_with_digit (drop_ws (skipn (List.length name) s))
         then Some (Some (take_while is_digit (drop_ws (skipn (List.length name) s))))
         else None
    else None.
Proof.
  cbn [m]. destruct (line_start prev); [|reflexivity]. cbn [andb].
  rewrite m_lits by (intros; rewrite !m_ws_digits; reflexivity).
  destruct (is_prefix name s); [|reflexivity].
  rewrite m_ws_digits, !drop_ws_drop_while. reflexivity.
Qed.

Lemma m_score_re (prev : option N) (s : jsstr) :
  m score_re prev s None
  = if line_start prev && score_line s
    then Some (Some (take_while is_digit (drop_ws (skipn 6 s)))) else None.
Proof.
  unfold score_re, score_line. rewrite m_label_digits.
  change (List.length (u "score:")) with 6%nat.
  destruct (line_start prev), (is_prefix (u "score:") s); cbn [andb]; reflexivity.
Qed.

Lemma drop_ws_app (v rest : jsstr) :
  (exists c, In c v /\ is_ws c = false) -> drop_ws (v ++ rest) = drop_ws v ++ rest.
Proof.
  induction v as [|x v IH]; intros [c [Hin Hc]]; [destruct Hin|].
  simpl. destruct Hin as [<-|Hin].
  - rewrite Hc. reflexivity.
  - destruct (is_ws x); [apply IH; eauto|reflexivity].
Qed.

Lemma drop_ws_suffix (v : jsstr) : exists pre, v = pre ++ drop_ws v.
Proof.
  induction v as [|x v [pre IH]]; simpl; [exists []; reflexivity|].
  destruct (is_ws x); [exists (x :: pre); simpl; f_equal; exact IH|exists []; reflexivity].
Qed.

Lemma drop_ws_idem (v : jsstr) : drop_ws (drop_ws v) = drop_ws v.
Proof.
  induction v as [|x v IH]; simpl; [reflexivity|].
  destruct (is_ws x) eqn:Hx; [exact IH|simpl; rewrite Hx; reflexivity].
Qed.

Lemma take_while_line (w rest : jsstr) :
  forallb not_lt w = true ->
  (rest = [] \/ exists c r, rest = c :: r /\ is_line_terminator c = true) ->
  take_while not_lt (w ++ rest) = w.
Proof.
  intros Hw Hr. induction w as [|x w IH]; simpl in *.
  - destruct Hr as [->|[c [r [-> Hc]]]]; [reflexivity|].
    simpl. unfold not_lt. rewrite Hc. reflexivity.
  - apply andb_prop in Hw as [Hx Hw]. rewrite Hx, IH by exact Hw. reflexivity.
Qed.

(** A label whose line carries a non-blank value gets that value, trimmed. *)
Lemma value_on_line (v rest : jsstr) :
  (exists c, In c v /\ is_ws c = false) ->
  forallb not_lt v = true ->
  (rest = [] \/ exists c r, rest = c :: r /\ is_line_terminator c = true) ->
  trim (take_while not_lt (drop_ws (v ++ rest))) = trim v.
Proof.
  intros Hc Hv Hr. rewrite drop_ws_app by exact Hc.
  rewrite take_while_line; [|destruct (drop_ws_suffix v) as [pre Hpre]|exact Hr].
  - unfold trim. rewrite drop_ws_idem. reflexivity.
  - rewrite Hpre in Hv. rewrite forallb_app in Hv. apply andb_prop in Hv as [_ Hv].
    exact Hv.
Qed.

Lemma skipn_label (name v : jsstr) : skipn (List.length name) (name ++ v) = v.
Proof. induction name; simpl; auto. Qed.

End RegexFacts.

Module HeaderClaims.
Import JsString Regex Stream HeaderReading RegexFacts.

(** C4 (code bug): the prompt asks for each value on the line of its label
    and the regular expressions read one line (flag [m], an anchor [^] and
    a capture up to the end of the line), but
    [\s*] also runs over a line break. For a header whose evaluation line
    has nothing after the colon, [onStructuredData] receives the next line
    as the evaluation, where the reading of the claim ([line_fields], the
    remainder of the line, trimmed) gives the empty string. *)
Theorem field_extraction_bug :
  structured (evaluateSentenceStream
                [u "score: 80" ++ [10%N] ++ u "evaluation:" ++ [10%N]
                 ++ u "correctedSentence: X" ++ separator ++ u "ok"] false)
  = [{| score := 80; evaluation := u "correctedSentence: X"; correctedSentence := u "X" |}]
  /\ line_fields (u "score: 80" ++ [10%N] ++ u "evaluation:" ++ [10%N]
                  ++ u "correctedSentence: X")
     = {| score := 80; evaluation := []; correctedSentence := u "X" |}.
Proof. split; vm_compute; reflexivity. Qed.

End HeaderClaims.

Module HistoryFacts.
Import JsString History.

Section WithBackend.
Variable B : Backend.

Lemma setItem_some (st st' : Store B) (v : V B) :
  setItem B st v = Some st' -> st' = Build_Store true (Some v).
Proof.
  unfold setItem. destruct (available st && fits B v); intros H; inversion H; reflexivity.
Qed.

Lemma getHistory_stored (h : list HistoryItem) :
  parse B (stringify B h) = Some h -> truthy B (stringify B h) = true ->
  getHistory B (Build_Store true (Some (stringify B h))) = h.
Proof. intros Hp Ht. unfold getHistory, getItem. simpl. rewrite Ht, Hp. reflexivity. Qed.

Lemma getHistory_save (st : Store B) (h : list HistoryItem) :
  parse B (stringify B h) = Some h -> truthy B (stringify B h) = true ->
  getHistory B (save B st h)
  = if available st && fits B (stringify B h) then h else getHistory B st.
Proof.
  intros Hp Ht. unfold save, setItem.
  destruct (available st && fits B (stringify B h)); [|reflexivity].
  apply getHistory_stored; assumption.
Qed.

Lemma getHistory_save_bound (st : Store B) (h : list HistoryItem) (n : nat) :
  (forall l, parse B (stringify B l) = Some l) ->
  (forall l, truthy B (stringify B l) = true) ->
  List.length h <= n -> List.length (getHistory B st) <= n ->
  List.length (getHistory B (save B st h)) <= n.
Proof.
  intros Hp Ht Hh Hs. rewrite getHistory_save by auto.
  destruct (available st && fits B (stringify B h)); assumption.
Qed.

End WithBackend.

(** [find] on a concatenation. *)
Lemma find_app {A} (f : A -> bool) (l1 l2 : list A) :
  find f (l1 ++ l2) = match find f l1 with Some x => Some x | None => find f l2 end.
Proof. induction l1 as [|x l1 IH]; simpl; [reflexivity|]. destruct (f x); auto. Qed.

Lemma jsstr_eqb_eq (a b : jsstr) : jsstr_eqb a b = true <-> a = b.
Proof. unfold jsstr_eqb. destruct (list_eq_dec N.eq_dec a b); split; congruence. Qed.

Lemma key_eqb_eq (a b : Key) : key_eqb a b = true <-> a = b.
Proof.
  destruct a as [t s], b as [t' s']. unfold key_eqb. simpl.
  rewrite andb_true_iff, Z.eqb_eq, jsstr_eqb_eq. split; [intros [-> ->]; reflexivity|].
  intros H; inversion H; auto.
Qed.

Lemma has_app (m : list (Key * HistoryItem)) (e : Key * HistoryItem) (k : Key) :
  has (m ++ [e]) k = has m k || key_eqb (fst e) k.
Proof. unfold has. rewrite existsb_app. simpl. rewrite orb_false_r. reflexivity. Qed.

Lemma has_in (m : list (Key * HistoryItem)) (k : Key) (y : HistoryItem) :
  In (k, y) m -> has m k = true.
Proof.
  intros H. apply existsb_exists. exists (k, y). split; [exact H|]. apply key_eqb_eq. reflexivity.
Qed.

Definition matches (k : Key) (it : HistoryItem) : bool :=
  valid it && match key it with Some k' => key_eqb k' k | None => false end.

Lemma matches_key (k : Key) (it : HistoryItem) :
  matches k it = true -> valid it = true /\ key it = Some k.
Proof.
  unfold matches. destruct (valid it); [|discriminate]. destruct (key it) as [k'|]; [|discriminate].
  intros H. apply key_eqb_eq in H. subst. auto.
Qed.

Lemma first_with_key_cons (k : Key) (x : HistoryItem) (l : list HistoryItem) :
  first_with_key k (x :: l) = if matches k x then Some x else first_with_key k l.
Proof. reflexivity. Qed.

Lemma merge_step_cases (m : list (Key * HistoryItem)) (x : HistoryItem) :
  (merge_step m x = m)
  \/ (exists k, matches k x = true /\ has m k = false /\ merge_step m x = m ++ [(k, x)]).
Proof.
  unfold merge_step. destruct (valid x) eqn:Hv; [|left; reflexivity].
  destruct (key x) as [k|] eqn:Hk; [|left; reflexivity].
  destruct (has m k) eqn:Hh; [left; reflexivity|].
  right. exists k. unfold matches. rewrite Hv, Hk. split; [apply key_eqb_eq; reflexivity|auto].
Qed.

Lemma merge_step_grows (m : list (Key * HistoryItem)) (x : HistoryItem) (e : Key * HistoryItem) :
  In e m -> In e (merge_step m x).
Proof.
  intros H. destruct (merge_step_cases m x) as [->|[k [_ [_ ->]]]]; [exact H|].
  apply in_or_app. left. exact H.
Qed.

Lemma merge_grows (l : list HistoryItem) (m : list (Key * HistoryItem)) (e : Key * HistoryItem) :
  In e m -> In e (fold_left merge_step l m).
Proof.
  revert m; induction l as [|x l IH]; intros m H; simpl; [exact H|].
  apply IH, merge_step_grows, H.
Qed.

(** Every entry of the map is the first valid item with its key. *)
Lemma merge_entries (l : list HistoryItem) (m : list (Key * HistoryItem)) (k : Key) (y : HistoryItem) :
  In (k, y) (fold_left merge_step l m) ->
  In (k, y) m \/ (first_with_key k l = Some y /\ has m k = false).
Proof.
  revert m; induction l as [|x l IH]; intros m H; simpl in H; [left; exact H|].
  rewrite first_with_key_cons.
  apply IH in H as [H|[Hf Hh]].
  - destruct (merge_step_cases m x) as [E|[k' [Hm [Hh E]]]]; rewrite E in H; [left; exact H|].
    apply in_app_or in H as [H|[H|[]]]; [left; exact H|].
    inversion H; subst. right. rewrite Hm. auto.
  - right. destruct (merge_step_cases m x) as [E|[k' [Hm [Hh' E]]]].
    + rewrite E in Hh. split; [|exact Hh].
      destruct (matches k x) eqn:Hx; [|exact Hf].
      exfalso. apply matches_key in Hx as [Hv Hk].
      unfold merge_step in E. rewrite Hv, Hk in E. rewrite Hh in E.
      apply (f_equal (@List.length _)) in E. rewrite length_app in E. simpl in E. lia.
    + rewrite E, has_app in Hh. apply orb_false_iff in Hh as [Hh Hk'].
      split; [|exact Hh]. destruct (matches k x) eqn:Hx; [|exact Hf].
      apply matches_key in Hx as [_ Hx]. apply matches_key in Hm as [_ Hm].
      rewrite Hx in Hm. inversion Hm; subst. simpl in Hk'.
      match type of Hk' with
      | key_eqb ?a ?b = false =>
          assert (key_eqb a b = true) by (apply key_eqb_eq; reflexivity); congruence
      end.
Qed.

(** The first valid item with a key is in the map. *)
Lemma merge_first (l : list HistoryItem) (m : list (Key * HistoryItem)) (k : Key) (x : HistoryItem) :
  first_with_key k l = Some x -> has m k = false -> In (k, x) (fold_left merge_step l m).
Proof.
  revert m; induction l as [|x0 l IH]; intros m Hf Hh; [discriminate|].
  rewrite first_with_key_cons in Hf. simpl.
  destruct (matches k x0) eqn:Hx.
  - inversion Hf; subst x0. apply merge_grows. apply matches_key in Hx as [Hv Hk].
    unfold merge_step. rewrite Hv, Hk, Hh. apply in_or_app. right. left. reflexivity.
  - apply IH; [exact Hf|].
    destruct (merge_step_cases m x0) as [->|[k' [Hm [_ ->]]]]; [exact Hh|].
    rewrite has_app, Hh. simpl. destruct (key_eqb k' k) eqn:E; [|reflexivity].
    apply key_eqb_eq in E. subst k'. congruence.
Qed.

Lemma insert_sorted (x : HistoryItem) (l : list HistoryItem) :
  sorted_desc l -> sorted_desc (insert_desc x l).
Proof.
  induction l as [|y l IH]; intros H; simpl; [exact I|].
  destruct (Z.leb (ts_of x) (ts_of y)) eqn:E.
  - apply Z.leb_le in E. destruct l as [|z l'].
    + simpl. auto.
    + destruct H as [Hzy Hs]. specialize (IH Hs). simpl in IH |- *.
      destruct (Z.leb (ts_of x) (ts_of z)); simpl; auto.
  - apply Z.leb_gt in E. simpl. split; [lia|exact H].
Qed.

Lemma sort_sorted_acc (l acc : list HistoryItem) :
  sorted_desc acc -> sorted_desc (fold_left (fun acc x => insert_desc x acc) l acc).
Proof.
  revert acc; induction l as [|x l IH]; intros acc H; simpl; [exact H|].
  apply IH, insert_sorted, H.
Qed.

Lemma sorted_firstn (n : nat) (l : list HistoryItem) :
  sorted_desc l -> sorted_desc (firstn n l).
Proof.
  revert n; induction l as [|x l IH]; intros n H; destruct n as [|n]; simpl; auto.
  destruct l as [|y l]; [destruct n; simpl; auto|].
  destruct H as [Hxy Hs]. specialize (IH n Hs).
  destruct n as [|n]; simpl in *; auto.
Qed.

Lemma in_insert (x y : HistoryItem) (l : list HistoryItem) :
  In y (insert_desc x l) <-> x = y \/ In y l.
Proof.
  induction l as [|z l IH]; simpl; [tauto|].
  destruct (Z.leb (ts_of x) (ts_of z)); simpl; rewrite ?IH; tauto.
Qed.

Lemma in_sort_acc (l acc : list HistoryItem) (y : HistoryItem) :
  In y (fold_left (fun acc x => insert_desc x acc) l acc) <-> In y acc \/ In y l.
Proof.
  revert acc; induction l as [|x l IH]; intros acc; simpl; [tauto|].
  rewrite IH, in_insert. tauto.
Qed.

Lemma in_sort (l : list HistoryItem) (y : HistoryItem) : In y (sort_desc l) <-> In y l.
Proof. unfold sort_desc. rewrite in_sort_acc. simpl. tauto. Qed.

Lemma in_firstn_l {A} (n : nat) (l : list A) (y : A) : In y (firstn n l) -> In y l.
Proof. intros H. rewrite <- (firstn_skipn n l). apply in_or_app. left. exact H. Qed.

End HistoryFacts.

Module HistoryClaims.
Import JsString History Samples HistoryFacts.

(** C7 (as stated, refuted): with a storage quota of one item, a second
    [addHistoryItem] fails to write, and the new item is not first. *)
Lemma history_cap_counterexample :
  let B := quota_backend 1 in
  let st := exec_ops B [OpAdd (sample_item 1 "a" 0)] (empty_store B true) in
  getHistory B (addHistoryItem B (sample_item 2 "b" 0) st)
  <> sample_item 2 "b" 0 :: firstn 99 (getHistory B st).
Proof. vm_compute. congruence. Qed.

(** C7 (amended): from an empty store every sequence of service calls
    keeps at most 200 items; [addHistoryItem] stores the new item followed
    by the first 99 previous items (at most 100) when the write succeeds,
    and leaves the history unchanged when the write throws. *)
Theorem history_cap (B : Backend)
    (Hp : forall l, parse B (stringify B l) = Some l)
    (Ht : forall l, truthy B (stringify B l) = true)
    (ops : list Op) (avail : bool) (it : HistoryItem) :
  let st := exec_ops B ops (empty_store B avail) in
  List.length (getHistory B st) <= 200
  /\ getHistory B (addHistoryItem B it st)
     = (if available st && fits B (stringify B (firstn 100 (it :: getHistory B st)))
        then it :: firstn 99 (getHistory B st)
        else getHistory B st)
  /\ (available st && fits B (stringify B (firstn 100 (it :: getHistory B st))) = true ->
      List.length (getHistory B (addHistoryItem B it st)) <= 100).
Proof.
  assert (Hinv : forall ops st, List.length (getHistory B st) <= 200 ->
                   List.length (getHistory B (exec_ops B ops st)) <= 200).
  { induction ops0 as [|op ops0 IH]; intros st0 H; simpl; [exact H|].
    apply IH. destruct op as [|x|x|i|ids|imp]; simpl.
    - exact H.
    - unfold addHistoryItem. apply getHistory_save_bound; auto.
      rewrite length_firstn. lia.
    - unfold updateHistoryItem. apply getHistory_save_bound; auto.
      rewrite length_map. exact H.
    - unfold deleteHistoryItem. apply getHistory_save_bound; auto.
      eapply Nat.le_trans; [apply filter_length_le|exact H].
    - unfold deleteMultipleHistoryItems. apply getHistory_save_bound; auto.
      eapply Nat.le_trans; [apply filter_length_le|exact H].
    - unfold mergeAndSaveHistory.
      destruct (setItem B st0 _) as [st'|] eqn:Es; simpl; [|exact H].
      apply setItem_some in Es. subst st'. rewrite getHistory_stored by auto.
      unfold merged. rewrite length_firstn. lia. }
  intros st. split; [apply Hinv; unfold getHistory, getItem; simpl; destruct avail; simpl; lia|].
  unfold addHistoryItem. rewrite getHistory_save by auto.
  destruct (available st && fits B (stringify B (firstn 100 (it :: getHistory B st)))).
  - split; [reflexivity|]. intros _. rewrite length_firstn. lia.
  - split; [reflexivity|discriminate].
Qed.

Lemma history_cap_witness :
  (forall l, parse (quota_backend 100) (stringify (quota_backend 100) l) = Some l)
  /\ (forall l, truthy (quota_backend 100) (stringify (quota_backend 100) l) = true)
  /\ List.length (getHistory (quota_backend 100)
                    (exec_ops (quota_backend 100) [OpAdd (sample_item 1 "a" 0)]
                       (empty_store (quota_backend 100) true))) <= 200.
Proof.
  split; [intros; reflexivity|]. split; [intros; reflexivity|].
  exact (proj1 (history_cap (quota_backend 100) (fun l => eq_refl) (fun l => eq_refl)
                  [OpAdd (sample_item 1 "a" 0)] true (sample_item 2 "b" 0))).
Defined.

Lemma first_with_key_app (k : Key) (l1 l2 : list HistoryItem) (x : HistoryItem) :
  first_with_key k l1 = Some x -> first_with_key k (l1 ++ l2) = Some x.
Proof. unfold first_with_key. rewrite find_app. intros ->. reflexivity. Qed.

Lemma first_with_key_key (k : Key) (l : list HistoryItem) (y : HistoryItem) :
  first_with_key k l = Some y -> key y = Some k.
Proof.
  intros H. apply find_some in H as [_ H]. apply (matches_key k y H).
Qed.

(** C8 (as stated, refuted): the existing item that shares its key with an
    imported one is dropped by the 200-item cap when 200 newer items are
    imported with it. *)
Lemma merge_keeps_existing_counterexample :
  let B := quota_backend 1000 in
  let existing := sample_item 0 "s" 0 in
  let imported := sample_item 0 "s" 1 :: map (fun n => sample_item (Z.of_nat n) "t" 0) (seq 1 200) in
  key existing = key (sample_item 0 "s" 1)
  /\ ~ In existing (fst (mergeAndSaveHistory B imported (Build_Store (B := B) true (Some [existing])))).
Proof.
  intros B existing imported. split; [reflexivity|]. intros H.
  assert (Hx : existsb (fun it => Z.eqb (ts_of it) 0)
                 (fst (mergeAndSaveHistory B imported (Build_Store (B := B) true (Some [existing]))))
               = true)
    by (apply existsb_exists; exists existing; split; [exact H|reflexivity]).
  vm_compute in Hx. discriminate Hx.
Qed.

(** C8 (amended): when the write succeeds, the returned and stored history
    is the merge, sorted by non-increasing timestamp; every item in it whose
    key is the key of a valid existing item is that (first such) existing
    item, never an imported one, and an existing item is missing only when
    the result is full at 200 items. When the write throws (storage
    unavailable or the merge does not fit), the stored history is returned
    and the store is left unchanged. *)
Theorem merge_keeps_existing (B : Backend)
    (Hp : forall l, parse B (stringify B l) = Some l)
    (Ht : forall l, truthy B (stringify B l) = true)
    (imported : list HistoryItem) (st : Store B) :
  let r := mergeAndSaveHistory B imported st in
  let written := available st && fits B (stringify B (merged (getHistory B st) imported)) in
  (written = false -> snd r = st /\ fst r = getHistory B st)
  /\ (written = true ->
      fst r = merged (getHistory B st) imported
      /\ snd r = Build_Store true (Some (stringify B (fst r)))
      /\ getHistory B (snd r) = fst r
      /\ sorted_desc (fst r)
      /\ (forall k x y, first_with_key k (getHistory B st) = Some x ->
            In y (fst r) -> key y = Some k -> y = x)
      /\ (forall k x, first_with_key k (getHistory B st) = Some x ->
            ~ In x (fst r) -> List.length (fst r) = 200)).
Proof.
  intros r written. unfold r, written, mergeAndSaveHistory, setItem.
  set (cur := getHistory B st). set (final := merged cur imported).
  destruct (available st && fits B (stringify B final)) eqn:Es; cbn [fst snd];
    [|split; [intros _; split; reflexivity|intros H; discriminate H]].
  split; [intros H; discriminate H|intros _].
  split; [reflexivity|]. split; [reflexivity|]. split; [apply getHistory_stored; auto|].
  set (hm := fold_left merge_step (cur ++ imported) []).
  assert (Hfinal : final = firstn 200 (sort_desc (map snd hm))) by reflexivity.
  split; [|split].
  - rewrite Hfinal. apply sorted_firstn. apply sort_sorted_acc. exact I.
  - intros k x y Hx Hy Hk. rewrite Hfinal in Hy.
    apply in_firstn_l, in_sort, in_map_iff in Hy as [[k' y'] [Heq Hin]].
    cbn [snd] in Heq. subst y'.
    apply merge_entries in Hin as [[]|[Hf _]].
    pose proof (first_with_key_key _ _ _ Hf) as Hk'. rewrite Hk in Hk'.
    inversion Hk'; subst k'.
    rewrite (first_with_key_app k cur imported x Hx) in Hf. congruence.
  - intros k x Hx Hnot.
    pose proof (merge_first (cur ++ imported) [] k x
                  (first_with_key_app k cur imported x Hx) eq_refl) as Hin.
    assert (Hs : In x (sort_desc (map snd hm)))
      by (apply in_sort, in_map_iff; exists (k, x); split; [reflexivity|exact Hin]).
    rewrite Hfinal in Hnot |- *. rewrite length_firstn.
    destruct (Nat.le_gt_cases (List.length (sort_desc (map snd hm))) 200) as [Hle|Hgt].
    + rewrite firstn_all2 in Hnot by exact Hle. contradiction.
    + lia.
Qed.

Local Abbreviation qb := (quota_backend 1).
Local Abbreviation st_o := (Build_Store (B := quota_backend 1) true (Some [sample_item 3 "o" 0])).

(** The merge of an item with the key of the stored one fits a quota of one
    item and is written, keeping the stored item; the merge of an item with
    another key does not fit and leaves the store unchanged. *)
Lemma merge_keeps_existing_witness :
  (forall l, parse qb (stringify qb l) = Some l)
  /\ (forall l, truthy qb (stringify qb l) = true)
  /\ (available st_o && fits qb (stringify qb (merged (getHistory qb st_o) [sample_item 3 "o" 1])) = true
      /\ fst (mergeAndSaveHistory qb [sample_item 3 "o" 1] st_o)
         = merged (getHistory qb st_o) [sample_item 3 "o" 1]
      /\ sorted_desc (fst (mergeAndSaveHistory qb [sample_item 3 "o" 1] st_o)))
  /\ (available st_o && fits qb (stringify qb (merged (getHistory qb st_o) [sample_item 5 "n" 1])) = false
      /\ snd (mergeAndSaveHistory qb [sample_item 5 "n" 1] st_o) = st_o).
Proof.
  assert (Hp : forall l, parse qb (stringify qb l) = Some l) by (intros; reflexivity).
  assert (Ht : forall l, truthy qb (stringify qb l) = true) by (intros; reflexivity).
  assert (E1 : available st_o && fits qb (stringify qb (merged (getHistory qb st_o) [sample_item 3 "o" 1])) = true)
    by (vm_compute; reflexivity).
  assert (E2 : available st_o && fits qb (stringify qb (merged (getHistory qb st_o) [sample_item 5 "n" 1])) = false)
    by (vm_compute; reflexivity).
  destruct (merge_keeps_existing qb Hp Ht [sample_item 3 "o" 1] st_o) as [_ S1].
  destruct (merge_keeps_existing qb Hp Ht [sample_item 5 "n" 1] st_o) as [F2 _].
  destruct (S1 E1) as [A1 [_ [_ [B1 _]]]]. destruct (F2 E2) as [A2 _].
  split; [exact Hp|]. split; [exact Ht|].
  split; [split; [exact E1|split; [exact A1|exact B1]]|split; [exact E2|exact A2]].
Defined.

(** C9: [getHistory] is total: it returns the parsed history when a value
    can be read and parses, and the empty list when no value is stored, when
    it does not parse, or when the storage cannot be read. *)
Theorem getHistory_total (B : Backend)
    (Hempty : forall v, truthy B v = false -> parse B v = None) (st : Store B) :
  (forall v h, available st = true -> value st = Some v -> parse B v = Some h ->
     getHistory B st = h)
  /\ (value st = None -> getHistory B st = [])
  /\ (forall v, value st = Some v -> parse B v = None -> getHistory B st = [])
  /\ (available st = false -> getHistory B st = []).
Proof.
  unfold getHistory, getItem.
  destruct st as [[|] [v0|]]; cbn [available value];
    repeat split; intros; try discriminate; try reflexivity.
  - inversion H0; subst v0. destruct (truthy B v) eqn:Et; [rewrite H1; reflexivity|].
    rewrite (Hempty v Et) in H1. discriminate.
  - inversion H; subst v0. rewrite H0. destruct (truthy B v); reflexivity.
Qed.

Lemma getHistory_total_witness :
  (forall v, truthy (quota_backend 5) v = false -> parse (quota_backend 5) v = None)
  /\ getHistory (quota_backend 5) (Build_Store (B := quota_backend 5) true (Some [sample_item 1 "a" 0]))
     = [sample_item 1 "a" 0].
Proof.
  assert (He : forall v, truthy (quota_backend 5) v = false -> parse (quota_backend 5) v = None)
    by (intros v Hv; discriminate Hv).
  split; [exact He|].
  exact (proj1 (getHistory_total (quota_backend 5) He
                  (Build_Store (B := quota_backend 5) true (Some [sample_item 1 "a" 0])))
           [sample_item 1 "a" 0] [sample_item 1 "a" 0] eq_refl eq_refl eq_refl).
Defined.

End HistoryClaims.

Module StreamExtras.
Import JsString Regex Stream HeaderReading StringFacts StreamFacts RegexFacts.

Lemma drop_ws_length (s : jsstr) : List.length (drop_ws s) <= List.length s.
Proof. induction s as [|x s IH]; simpl; [lia|]. destruct (is_ws x); simpl; lia. Qed.

Lemma drop_ws_fixed (w : jsstr) :
  drop_ws w = w -> w = [] \/ exists c w', w = c :: w' /\ is_ws c = false.
Proof.
  destruct w as [|c w']; [left; reflexivity|]. intros H. right. exists c, w'.
  split; [reflexivity|]. simpl in H. destruct (is_ws c); [|reflexivity].
  pose proof (drop_ws_length w') as Hl. rewrite H in Hl. simpl in Hl. lia.
Qed.

(** [trim] is idempotent: its result has no whitespace at either end. *)
Lemma trim_trim (x : jsstr) : trim (trim x) = trim x.
Proof.
  unfold trim at 2 3. set (w := drop_ws x). set (p := rev (drop_ws (rev w))).
  assert (Hw : drop_ws w = w) by apply drop_ws_idem.
  assert (Hp : exists t, w = p ++ t).
  { destruct (drop_ws_suffix (rev w)) as [pre Hpre]. exists (rev pre).
    unfold p. rewrite <- rev_app_distr, <- Hpre, rev_involutive. reflexivity. }
  assert (Hdp : drop_ws p = p).
  { destruct Hp as [t Ht]. destruct p as [|c p']; [reflexivity|].
    destruct (drop_ws_fixed w Hw) as [E|[c' [w' [E Hc]]]];
      rewrite Ht in E; [discriminate|]. inversion E; subst c'. simpl. rewrite Hc. reflexivity. }
  unfold trim. rewrite Hdp. unfold p. rewrite rev_involutive, drop_ws_idem. reflexivity.
Qed.

Lemma step_shape (st : LoopState) (c : jsstr) :
  (headersParsed st = false -> emitted st = []) ->
  (exists od L, emitted st = (match od with Some d => [OnStructuredData d] | None => [] end)
                             ++ map OnExplanationChunk L
                /\ Forall (fun x => x <> []) L) ->
  (headersParsed (chunk_step st c) = false -> emitted (chunk_step st c) = [])
  /\ (exists od L, emitted (chunk_step st c)
                   = (match od with Some d => [OnStructuredData d] | None => [] end)
                     ++ map OnExplanationChunk L
      /\ Forall (fun x => x <> []) L).
Proof.
  intros H1 [od [L [He HL]]]. unfold chunk_step.
  destruct c as [|x c]; [split; [exact H1|exists od, L; split; assumption]|].
  destruct (headersParsed st) eqn:Hp.
  - cbn [headersParsed emitted]. split; [discriminate|].
    exists od, (L ++ [x :: c]). split.
    + rewrite He, map_app, app_assoc. reflexivity.
    + apply Forall_app. split; [exact HL|]. constructor; [discriminate|constructor].
  - rewrite (H1 eq_refl).
    destruct (index_of separator (buffer st ++ x :: c)) as [i|].
    + cbn [headersParsed emitted]. split; [discriminate|].
      exists (Some (parse_header (substring_to (buffer st ++ x :: c) i))).
      destruct (substring_from (buffer st ++ x :: c) (i + List.length separator)) as [|y f].
      * exists []. split; [reflexivity|constructor].
      * exists [y :: f]. split; [reflexivity|]. constructor; [discriminate|constructor].
    + cbn [headersParsed emitted]. split; [reflexivity|].
      exists None, []. split; [reflexivity|constructor].
Qed.

Lemma loop_shape (cs : list jsstr) (st : LoopState) :
  (headersParsed st = false -> emitted st = []) ->
  (exists od L, emitted st = (match od with Some d => [OnStructuredData d] | None => [] end)
                             ++ map OnExplanationChunk L
                /\ Forall (fun x => x <> []) L) ->
  let st' := fold_left chunk_step cs st in
  (headersParsed st' = false -> emitted st' = [])
  /\ (exists od L, emitted st' = (match od with Some d => [OnStructuredData d] | None => [] end)
                                 ++ map OnExplanationChunk L
      /\ Forall (fun x => x <> []) L).
Proof.
  revert st; induction cs as [|c cs IH]; intros st H1 H2; [split; assumption|].
  cbn [fold_left]. destruct (step_shape st c H1 H2) as [H1' H2']. exact (IH _ H1' H2').
Qed.

Lemma fallback_shape (st : LoopState) :
  exists od L, fallback st = (match od with Some d => [OnStructuredData d] | None => [] end)
                             ++ map OnExplanationChunk L
               /\ Forall (fun x => x <> []) L.
Proof.
  unfold fallback. destruct (_ && _); [|exists None, []; split; [reflexivity|constructor]].
  match goal with
  | |- context [OnStructuredData ?d] => exists (Some d)
  end.
  match goal with
  | |- context [match ?e with [] => [] | _ :: _ => _ end] => destruct e as [|y t]
  end.
  - exists []. split; [reflexivity|constructor].
  - exists [y :: t]. split; [reflexivity|]. constructor; [discriminate|constructor].
Qed.

(** Every run, whatever the chunks and wherever the model stream fails,
    calls [onStructuredData] at most once and before any other callback,
    never calls [onExplanationChunk] with an empty string, and ends with
    exactly one call of [onStreamEnd]. *)
Theorem stream_protocol (chunks : list jsstr) (fails : bool) :
  exists od L,
    evaluateSentenceStream chunks fails
      = (match od with Some d => [OnStructuredData d] | None => [] end)
        ++ map OnExplanationChunk L ++ [OnStreamEnd]
    /\ Forall (fun c => c <> []) L.
Proof.
  rewrite run_unfold.
  destruct (loop_shape chunks init_state (fun _ => eq_refl)
              (ex_intro _ None (ex_intro _ [] (conj eq_refl (Forall_nil _)))))
    as [H1 [od [L [He HL]]]].
  fold (run_loop chunks) in H1, He. destruct fails.
  - exists od, (L ++ [error_message]). split.
    + rewrite He, map_app, <- !app_assoc. reflexivity.
    + apply Forall_app. split; [exact HL|]. constructor; [discriminate|constructor].
  - destruct (headersParsed (run_loop chunks)) eqn:Hp.
    + rewrite (fallback_parsed _ Hp), He, <- app_assoc. exists od, L. split; [reflexivity|exact HL].
    + rewrite (H1 eq_refl). destruct (fallback_shape (run_loop chunks)) as [od' [L' [Hf HL']]].
      rewrite Hf, <- app_assoc. exists od', L'. split; [reflexivity|exact HL'].
Qed.

Lemma concat_all_empty (cs : list jsstr) : Forall (fun c => c = []) cs -> List.concat cs = [].
Proof. induction 1 as [|c cs Hc _ IH]; simpl; [reflexivity|]. rewrite Hc, IH. reflexivity. Qed.

(** A stream that ends without giving any text (no chunk, or only chunks
    with an empty or missing text) calls [onStreamEnd] only: no structured
    data and no explanation. *)
Theorem empty_stream_only_ends (chunks : list jsstr)
    (H : Forall (fun c => c = []) chunks) :
  evaluateSentenceStream chunks false = [OnStreamEnd].
Proof.
  rewrite run_unfold. pose proof (run_loop_cases chunks) as Hc. cbv zeta in Hc.
  rewrite (concat_all_empty _ H) in Hc. cbn in Hc. rewrite Hc. reflexivity.
Qed.

Lemma empty_stream_only_ends_witness :
  Forall (fun c : jsstr => c = []) [[]; []] /\ evaluateSentenceStream [[]; []] false = [OnStreamEnd].
Proof.
  assert (H : Forall (fun c : jsstr => c = []) [[]; []]) by (repeat constructor).
  split; [exact H|exact (empty_stream_only_ends [[]; []] H)].
Defined.

Lemma parseInt_digits_nonneg (d : jsstr) :
  forallb is_digit d = true -> (0 <= parseInt d)%Z.
Proof.
  unfold parseInt. intros Hd.
  assert (G : forall acc, (0 <= acc)%Z ->
            (0 <= fold_left (fun acc c => acc * 10 + (Z.of_N c - 48))%Z d acc)%Z).
  { induction d as [|c d IH]; intros acc Hacc; simpl; [exact Hacc|].
    simpl in Hd. apply andb_prop in Hd as [Hc Hd]. apply IH; [exact Hd|].
    unfold is_digit in Hc. apply andb_prop in Hc as [Hc _]. apply N.leb_le in Hc. lia. }
  apply G. lia.
Qed.

Lemma take_while_all (f : N -> bool) (s : jsstr) : forallb f (take_while f s) = true.
Proof.
  induction s as [|c s IH]; simpl; [reflexivity|]. destruct (f c) eqn:E; simpl; [|reflexivity].
  rewrite E, IH. reflexivity.
Qed.

(** The header fields given to [onStructuredData] by either parse: the
    score is never negative, and the evaluation and the corrected sentence
    have no whitespace at either end (the defaults included). *)
Theorem header_values (header : jsstr) :
  (0 <= score (parse_header header))%Z
  /\ trim (evaluation (parse_header header)) = evaluation (parse_header header)
  /\ trim (correctedSentence (parse_header header)) = correctedSentence (parse_header header).
Proof.
  unfold parse_header, str_match. cbn [score evaluation correctedSentence].
  rewrite (search_first score_re score_line _ m_score_re).
  split; [|split].
  - destruct (first_line_where score_line None header); [|lia].
    apply parseInt_digits_nonneg, take_while_all.
  - destruct (search evaluation_re None header) as [[e|]|];
      [apply trim_trim|reflexivity|reflexivity].
  - destruct (search correctedSentence_re None header) as [[e|]|];
      [apply trim_trim|reflexivity|reflexivity].
Qed.

End StreamExtras.

Module HistoryExtras.
Import JsString History Samples HistoryFacts.

Lemma opt_jsstr_eqb_eq (a b : option jsstr) : opt_jsstr_eqb a b = true <-> a = b.
Proof.
  destruct a as [x|], b as [y|]; simpl; try (split; congruence).
  rewrite jsstr_eqb_eq. split; congruence.
Qed.

Lemma opt_jsstr_eqb_neq (a b : option jsstr) : a <> b -> opt_jsstr_eqb a b = false.
Proof.
  intros H. destruct (opt_jsstr_eqb a b) eqn:E; [|reflexivity].
  apply opt_jsstr_eqb_eq in E. contradiction.
Qed.

Lemma filter_and {A} (p q : A -> bool) (l : list A) :
  filter p (filter q l) = filter (fun x => q x && p x) l.
Proof.
  induction l as [|x l IH]; simpl; [reflexivity|].
  destruct (q x); simpl; [destruct (p x); simpl|]; rewrite IH; reflexivity.
Qed.

Lemma filter_ext_eq {A} (p q : A -> bool) (l : list A) :
  (forall x, p x = q x) -> filter p l = filter q l.
Proof. intros H. induction l as [|x l IH]; simpl; [reflexivity|]. rewrite H, IH. reflexivity. Qed.

Section Writes.
Variable B : Backend.
Hypothesis Hp : forall l, parse B (stringify B l) = Some l.
Hypothesis Ht : forall l, truthy B (stringify B l) = true.
Hypothesis Hfit : forall v, fits B v = true.

Lemma save_ok (st : Store B) (h : list HistoryItem) :
  available st = true ->
  getHistory B (save B st h) = h /\ available (save B st h) = true.
Proof.
  intros Ha. rewrite getHistory_save by auto. rewrite Ha, Hfit. split; [reflexivity|].
  unfold save, setItem. rewrite Ha, Hfit. reflexivity.
Qed.

Lemma delete_ok (i : jsstr) (st : Store B) :
  available st = true ->
  getHistory B (deleteHistoryItem B i st)
    = filter (fun item => negb (opt_jsstr_eqb (id item) (Some i))) (getHistory B st)
  /\ available (deleteHistoryItem B i st) = true.
Proof. intros Ha. exact (save_ok st _ Ha). Qed.

Lemma deletes_ok (ids : list jsstr) (st : Store B) :
  available st = true ->
  getHistory B (fold_left (fun s i => deleteHistoryItem B i s) ids st)
    = filter (fun item => match id item with
                          | Some x => negb (existsb (jsstr_eqb x) ids)
                          | None => true
                          end) (getHistory B st)
  /\ available (fold_left (fun s i => deleteHistoryItem B i s) ids st) = true.
Proof.
  revert st; induction ids as [|i ids IH]; intros st Ha; cbn [fold_left].
  - split; [|exact Ha]. generalize (getHistory B st). intros h.
    induction h as [|x h IHh]; [reflexivity|]. cbn [filter].
    rewrite <- IHh. destruct (id x); reflexivity.
  - destruct (delete_ok i st Ha) as [E1 A1]. destruct (IH _ A1) as [E2 A2].
    split; [|exact A2]. rewrite E2, E1, filter_and. apply filter_ext_eq. intros x.
    destruct (id x) as [y|]; cbn [existsb opt_jsstr_eqb]; [|reflexivity].
    destruct (jsstr_eqb y i), (existsb (jsstr_eqb y) ids); reflexivity.
Qed.

End Writes.

(** Adding an item whose id no stored item has, to a history of fewer than
    100 items, and then deleting that id gives back the history as it was,
    when the storage writes succeed. *)
Theorem add_then_delete (B : Backend)
    (Hp : forall l, parse B (stringify B l) = Some l)
    (Ht : forall l, truthy B (stringify B l) = true)
    (Hfit : forall v, fits B v = true)
    (st : Store B) (it : HistoryItem) (i : jsstr)
    (Havail : available st = true) (Hid : id it = Some i)
    (Hfresh : Forall (fun x => id x <> Some i) (getHistory B st))
    (Hlen : List.length (getHistory B st) < 100) :
  getHistory B (deleteHistoryItem B i (addHistoryItem B it st)) = getHistory B st.
Proof.
  unfold addHistoryItem.
  destruct (save_ok B Hp Ht Hfit st (firstn 100 (it :: getHistory B st)) Havail) as [E A].
  rewrite (proj1 (delete_ok B Hp Ht Hfit i _ A)), E.
  rewrite firstn_all2 by (simpl; lia). cbn [filter]. rewrite Hid.
  cbn [opt_jsstr_eqb]. replace (jsstr_eqb i i) with true by (symmetry; apply jsstr_eqb_eq; reflexivity).
  cbn [negb]. clear -Hfresh. induction Hfresh as [|x h Hx _ IH]; [reflexivity|].
  cbn [filter]. rewrite (opt_jsstr_eqb_neq _ _ Hx). cbn [negb]. rewrite IH. reflexivity.
Qed.

Lemma add_then_delete_witness :
  (forall l, parse mem_backend (stringify mem_backend l) = Some l)
  /\ getHistory mem_backend
       (deleteHistoryItem mem_backend (u "n")
          (addHistoryItem mem_backend (sample_item 2 "n" 0)
             (Build_Store (B := mem_backend) true (Some [sample_item 1 "o" 0]))))
     = [sample_item 1 "o" 0].
Proof.
  split; [intros; reflexivity|].
  apply (add_then_delete mem_backend (fun l => eq_refl) (fun l => eq_refl) (fun v => eq_refl)).
  - reflexivity.
  - reflexivity.
  - constructor; [discriminate|constructor].
  - simpl. lia.
Defined.

(** Deleting several ids at once with [deleteMultipleHistoryItems] leaves
    the same stored history as deleting them one at a time with
    [deleteHistoryItem], when the storage writes succeed. *)
Theorem delete_many_as_deletes (B : Backend)
    (Hp : forall l, parse B (stringify B l) = Some l)
    (Ht : forall l, truthy B (stringify B l) = true)
    (Hfit : forall v, fits B v = true)
    (ids : list jsstr) (st : Store B) (Havail : available st = true) :
  getHistory B (deleteMultipleHistoryItems B ids st)
  = getHistory B (fold_left (fun s i => deleteHistoryItem B i s) ids st).
Proof.
  rewrite (proj1 (deletes_ok B Hp Ht Hfit ids st Havail)).
  unfold deleteMultipleHistoryItems. exact (proj1 (save_ok B Hp Ht Hfit st _ Havail)).
Qed.

Lemma delete_many_as_deletes_witness :
  (forall l, parse mem_backend (stringify mem_backend l) = Some l)
  /\ getHistory mem_backend
       (deleteMultipleHistoryItems mem_backend [u "a"; u "c"]
          (Build_Store (B := mem_backend) true
             (Some [sample_item 3 "a" 0; sample_item 2 "b" 0; sample_item 1 "c" 0])))
     = getHistory mem_backend
         (fold_left (fun s i => deleteHistoryItem mem_backend i s) [u "a"; u "c"]
            (Build_Store (B := mem_backend) true
               (Some [sample_item 3 "a" 0; sample_item 2 "b" 0; sample_item 1 "c" 0]))).
Proof.
  split; [intros; reflexivity|].
  apply (delete_many_as_deletes mem_backend (fun l => eq_refl) (fun l => eq_refl) (fun v => eq_refl)).
  reflexivity.
Defined.

(** When the write succeeds, [updateHistoryItem] keeps the ids of the stored
    items and their order, every item of the new history is either the
    update or an old item with another id, and when no stored item has the
    id of the update the stored history is left as it was. *)
Theorem update_keeps_ids (B : Backend)
    (Hp : forall l, parse B (stringify B l) = Some l)
    (Ht : forall l, truthy B (stringify B l) = true)
    (Hfit : forall v, fits B v = true)
    (it : HistoryItem) (st : Store B) (Havail : available st = true) :
  map id (getHistory B (updateHistoryItem B it st)) = map id (getHistory B st)
  /\ (forall x, In x (getHistory B (updateHistoryItem B it st)) ->
      x = it \/ (In x (getHistory B st) /\ id x <> id it))
  /\ (Forall (fun x => id x <> id it) (getHistory B st) ->
      getHistory B (updateHistoryItem B it st) = getHistory B st).
Proof.
  unfold updateHistoryItem. rewrite (proj1 (save_ok B Hp Ht Hfit st _ Havail)).
  generalize (getHistory B st) as h. intros h. split; [|split].
  - rewrite map_map. apply map_ext. intros x.
    destruct (opt_jsstr_eqb (id x) (id it)) eqn:E; [|reflexivity].
    apply opt_jsstr_eqb_eq in E. symmetry. exact E.
  - intros x Hx. apply in_map_iff in Hx as [y [Ey Hy]].
    destruct (opt_jsstr_eqb (id y) (id it)) eqn:E; [left; symmetry; exact Ey|].
    subst y. right. split; [exact Hy|]. intros C. apply opt_jsstr_eqb_eq in C. congruence.
  - intros Hf. induction Hf as [|x h Hx _ IH]; [reflexivity|].
    cbn [map]. rewrite (opt_jsstr_eqb_neq _ _ Hx), IH. reflexivity.
Qed.

Lemma update_keeps_ids_witness :
  (forall l, parse mem_backend (stringify mem_backend l) = Some l)
  /\ map id (getHistory mem_backend
       (updateHistoryItem mem_backend (sample_item 5 "b" 1)
          (Build_Store (B := mem_backend) true
             (Some [sample_item 3 "a" 0; sample_item 2 "b" 0]))))
     = [Some (u "a"); Some (u "b")].
Proof.
  split; [intros; reflexivity|].
  refine (eq_trans (proj1 (update_keeps_ids mem_backend (fun l => eq_refl) (fun l => eq_refl)
                            (fun v => eq_refl) (sample_item 5 "b" 1) _ _)) _);
    reflexivity.
Defined.

(** The invariant of [historyMap]: each entry holds a valid item under the
    item's own key, and no key occurs twice. *)
Abbreviation map_ok m :=
  (NoDup (map key (map snd m))
   /\ Forall (fun e : Key * HistoryItem => key (snd e) = Some (fst e) /\ valid (snd e) = true) m).

Lemma merge_step_ok (m : list (Key * HistoryItem)) (x : HistoryItem) :
  map_ok m -> map_ok (merge_step m x).
Proof.
  intros [Hn Hf]. destruct (merge_step_cases m x) as [->|[k [Hm [Hh ->]]]]; [split; assumption|].
  apply matches_key in Hm as [Hv Hk]. split.
  - rewrite !map_app. cbn [map snd]. rewrite Hk.
    apply (Permutation_NoDup (Permutation_cons_append _ _)). constructor; [|exact Hn].
    intros Hin. apply in_map_iff in Hin as [y [Ey Hy]]. apply in_map_iff in Hy as [e [<- He]].
    rewrite Forall_forall in Hf. destruct (Hf e He) as [Ke _].
    rewrite Ey in Ke. inversion Ke; subst k.
    destruct e as [k' y]. simpl in Hh. rewrite (has_in m k' y He) in Hh. discriminate.
  - apply Forall_app. split; [exact Hf|]. constructor; [|constructor]. simpl. auto.
Qed.

Lemma merge_ok (l : list HistoryItem) (m : list (Key * HistoryItem)) :
  map_ok m -> map_ok (fold_left merge_step l m).
Proof.
  revert m; induction l as [|x l IH]; intros m H; simpl; [exact H|]. apply IH, merge_step_ok, H.
Qed.

Lemma insert_perm (x : HistoryItem) (l : list HistoryItem) :
  Permutation (insert_desc x l) (x :: l).
Proof.
  induction l as [|y l IH]; simpl; [reflexivity|].
  destruct (Z.leb (ts_of x) (ts_of y)); [|reflexivity].
  etransitivity; [apply perm_skip, IH|apply perm_swap].
Qed.

Lemma sort_perm_acc (l acc : list HistoryItem) :
  Permutation (fold_left (fun acc x => insert_desc x acc) l acc) (l ++ acc).
Proof.
  revert acc; induction l as [|x l IH]; intros acc; simpl; [reflexivity|].
  etransitivity; [apply IH|]. etransitivity; [apply Permutation_app_head, insert_perm|].
  symmetry. apply Permutation_middle.
Qed.

Lemma sort_perm (l : list HistoryItem) : Permutation (sort_desc l) l.
Proof. unfold sort_desc. rewrite sort_perm_acc, app_nil_r. reflexivity. Qed.

Lemma NoDup_firstn_l {A} (n : nat) (l : list A) : NoDup l -> NoDup (firstn n l).
Proof. intros H. rewrite <- (firstn_skipn n l) in H. exact (NoDup_app_remove_r _ _ H). Qed.

Lemma find_in {A} (f : A -> bool) (l : list A) (x : A) : find f l = Some x -> In x l.
Proof. intros H. exact (proj1 (find_some f l H)). Qed.

(** The merged history: its size, validity, distinct keys, order and origin. *)
Lemma merged_props (cur imp : list HistoryItem) :
  List.length (merged cur imp) <= 200
  /\ Forall (fun x => valid x = true) (merged cur imp)
  /\ NoDup (map key (merged cur imp))
  /\ sorted_desc (merged cur imp)
  /\ (forall x, In x (merged cur imp) -> In x (cur ++ imp)).
Proof.
  unfold merged. set (l := cur ++ imp).
  assert (Hok : map_ok (fold_left merge_step l [])) by (apply merge_ok; split; constructor).
  destruct Hok as [Hn Hf]. set (m := fold_left merge_step l []) in *.
  assert (Hin : forall x, In x (firstn 200 (sort_desc (map snd m))) -> In x (map snd m)).
  { intros x Hx. apply in_firstn_l in Hx. exact (proj1 (in_sort _ _) Hx). }
  split; [|split; [|split; [|split]]].
  - apply firstn_le_length.
  - apply Forall_forall. intros x Hx. apply Hin, in_map_iff in Hx as [e [<- He]].
    rewrite Forall_forall in Hf. exact (proj2 (Hf e He)).
  - rewrite <- firstn_map. apply NoDup_firstn_l.
    apply (Permutation_NoDup (Permutation_map key (Permutation_sym (sort_perm _)))). exact Hn.
  - apply sorted_firstn. unfold sort_desc. apply sort_sorted_acc. exact I.
  - intros x Hx. apply Hin, in_map_iff in Hx as [[k y] [Ey He]]. simpl in Ey. subst y.
    apply merge_entries in He as [[]|[Hk _]]. exact (find_in _ _ _ Hk).
Qed.

Lemma merge_written (B : Backend) (Hfit : forall v, fits B v = true)
    (imported : list HistoryItem) (st : Store B) (Havail : available st = true) :
  mergeAndSaveHistory B imported st
  = (merged (getHistory B st) imported,
     Build_Store true (Some (stringify B (merged (getHistory B st) imported)))).
Proof. unfold mergeAndSaveHistory, setItem. rewrite Havail, Hfit. reflexivity. Qed.

(** When the write succeeds, the history returned by [mergeAndSaveHistory]
    has at most 200 items, all of them valid (string id, number timestamp,
    string main sentence), no two with the same (timestamp, main sentence)
    key, and each of them taken from the current or the imported history. *)
Theorem merge_result_clean (B : Backend)
    (Hfit : forall v, fits B v = true)
    (imported : list HistoryItem) (st : Store B) (Havail : available st = true) :
  let r := fst (mergeAndSaveHistory B imported st) in
  List.length r <= 200
  /\ Forall (fun x => valid x = true) r
  /\ NoDup (map key r)
  /\ (forall x, In x r -> In x (getHistory B st ++ imported)).
Proof.
  rewrite (merge_written B Hfit imported st Havail). cbn [fst].
  destruct (merged_props (getHistory B st) imported) as [H1 [H2 [H3 [_ H5]]]]. auto.
Qed.

Lemma merge_result_clean_witness :
  available (Build_Store (B := mem_backend) true (Some [sample_item 3 "a" 0])) = true
  /\ fst (mergeAndSaveHistory mem_backend [sample_item 3 "a" 1; sample_item 4 "b" 0]
            (Build_Store (B := mem_backend) true (Some [sample_item 3 "a" 0])))
     = [sample_item 4 "b" 0; sample_item 3 "a" 0]
  /\ NoDup (map key (fst (mergeAndSaveHistory mem_backend [sample_item 3 "a" 1; sample_item 4 "b" 0]
            (Build_Store (B := mem_backend) true (Some [sample_item 3 "a" 0]))))).
Proof.
  split; [reflexivity|split; [reflexivity|]].
  exact (proj1 (proj2 (proj2 (merge_result_clean mem_backend (fun v => eq_refl)
           [sample_item 3 "a" 1; sample_item 4 "b" 0]
           (Build_Store (B := mem_backend) true (Some [sample_item 3 "a" 0])) eq_refl)))).
Defined.

Lemma valid_key (x : HistoryItem) : valid x = true -> exists k, key x = Some k.
Proof.
  unfold valid, key. destruct (id x), (timestamp x) as [t|], (mainSentence x) as [m|];
    try discriminate; eauto.
Qed.

(** Items that are valid, have distinct keys and whose keys are not yet in
    the map are all added, in order. *)
Lemma fold_fresh (r : list HistoryItem) (m : list (Key * HistoryItem)) :
  map_ok m -> Forall (fun x => valid x = true) r -> NoDup (map key r) ->
  (forall x, In x r -> ~ In (key x) (map key (map snd m))) ->
  map snd (fold_left merge_step r m) = map snd m ++ r.
Proof.
  revert m; induction r as [|x r IH]; intros m Hok Hv Hn Hfr; simpl; [rewrite app_nil_r; reflexivity|].
  inversion Hv as [|? ? Hx Hv']; subst. inversion Hn as [|? ? Hnx Hn']; subst.
  destruct (valid_key x Hx) as [k Hk].
  assert (Hh : has m k = false).
  { destruct (has m k) eqn:E; [|reflexivity]. exfalso.
    apply existsb_exists in E as [[k' y] [He Ek]]. simpl in Ek. apply key_eqb_eq in Ek. subst k'.
    apply (Hfr x (or_introl eq_refl)). rewrite Hk.
    destruct Hok as [_ Hf]. rewrite Forall_forall in Hf. destruct (Hf _ He) as [Ky _].
    simpl in Ky. rewrite <- Ky. apply in_map, (in_map snd _ (k, y)), He. }
  assert (E : merge_step m x = m ++ [(k, x)]) by (unfold merge_step; rewrite Hx, Hk, Hh; reflexivity).
  rewrite E, IH.
  - rewrite map_app, <- app_assoc. reflexivity.
  - rewrite <- E. apply merge_step_ok, Hok.
  - exact Hv'.
  - exact Hn'.
  - intros y Hy. rewrite !map_app. cbn [map snd]. intros Hin. apply in_app_or in Hin as [Hin|[Hin|[]]].
    + exact (Hfr y (or_intror Hy) Hin).
    + apply Hnx. rewrite Hin. apply in_map, Hy.
Qed.

(** Items already in the map leave it unchanged. *)
Lemma fold_known (extra : list HistoryItem) (m : list (Key * HistoryItem)) :
  map_ok m -> (forall x, In x extra -> In x (map snd m)) -> fold_left merge_step extra m = m.
Proof.
  revert m; induction extra as [|x extra IH]; intros m Hok Hin; simpl; [reflexivity|].
  assert (E : merge_step m x = m).
  { destruct (merge_step_cases m x) as [E|[k [Hm [Hh _]]]]; [exact E|].
    pose proof (Hin x (or_introl eq_refl)) as H. apply in_map_iff in H as [[k' y] [Ey He]].
    simpl in Ey. subst y. apply matches_key in Hm as [_ Hk].
    destruct Hok as [_ Hf]. rewrite Forall_forall in Hf. destruct (Hf _ He) as [Ky _].
    simpl in Ky. rewrite Hk in Ky. inversion Ky; subst k'. rewrite (has_in m k x He) in Hh. discriminate. }
  rewrite E. apply IH; [exact Hok|]. intros y Hy. apply Hin. right. exact Hy.
Qed.

Lemma sorted_tail (x : HistoryItem) (l : list HistoryItem) : sorted_desc (x :: l) -> sorted_desc l.
Proof. destruct l; simpl; tauto. Qed.

Lemma sorted_head (x : HistoryItem) (l : list HistoryItem) :
  sorted_desc (x :: l) -> forall y, In y l -> (ts_of y <= ts_of x)%Z.
Proof.
  revert x; induction l as [|z l IH]; intros x H y Hy; [destruct Hy|].
  destruct H as [Hzx Hs]. destruct Hy as [<-|Hy]; [exact Hzx|].
  specialize (IH z Hs y Hy). lia.
Qed.

Lemma insert_end (x : HistoryItem) (l : list HistoryItem) :
  (forall y, In y l -> (ts_of x <= ts_of y)%Z) -> insert_desc x l = l ++ [x].
Proof.
  induction l as [|y l IH]; intros H; simpl; [reflexivity|].
  assert (E : Z.leb (ts_of x) (ts_of y) = true) by (apply Z.leb_le, H; left; reflexivity).
  rewrite E, IH; [reflexivity|]. intros z Hz. apply H. right. exact Hz.
Qed.

Lemma sort_sorted_id_acc (l acc : list HistoryItem) :
  sorted_desc (acc ++ l) -> fold_left (fun acc x => insert_desc x acc) l acc = acc ++ l.
Proof.
  revert acc; induction l as [|x l IH]; intros acc H; simpl; [rewrite app_nil_r; reflexivity|].
  rewrite insert_end.
  - rewrite IH; rewrite <- app_assoc; [reflexivity|exact H].
  - intros y Hy. clear IH. induction acc as [|a acc IHa]; [destruct Hy|].
    destruct Hy as [Ea|Hy].
    + subst a. apply (sorted_head y (acc ++ x :: l) H). apply in_or_app. right. left. reflexivity.
    + apply IHa; [exact (sorted_tail a _ H)|exact Hy].
Qed.

(** Importing again items of a history returned by a successful merge (for
    example a file exported from it) changes neither the returned history
    nor the store, when the storage writes succeed. *)
Theorem merge_reimport (B : Backend)
    (Hp : forall l, parse B (stringify B l) = Some l)
    (Ht : forall l, truthy B (stringify B l) = true)
    (Hfit : forall v, fits B v = true)
    (imported extra : list HistoryItem) (st : Store B) (Havail : available st = true)
    (Hextra : forall x, In x extra -> In x (fst (mergeAndSaveHistory B imported st))) :
  mergeAndSaveHistory B extra (snd (mergeAndSaveHistory B imported st))
  = mergeAndSaveHistory B imported st.
Proof.
  rewrite (merge_written B Hfit imported st Havail) in Hextra |- *. cbn [fst snd] in Hextra |- *.
  set (h := merged (getHistory B st) imported) in *.
  rewrite (merge_written B Hfit extra (Build_Store true (Some (stringify B h))) eq_refl).
  rewrite getHistory_stored by auto.
  destruct (merged_props (getHistory B st) imported) as [H1 [H2 [H3 [H4 _]]]]. fold h in H1, H2, H3, H4.
  assert (Hm : map snd (fold_left merge_step h []) = h).
  { apply fold_fresh; [split; constructor|exact H2|exact H3|]. intros x _ []. }
  assert (Hr : merged h extra = h).
  { unfold merged. rewrite fold_left_app, fold_known.
    - rewrite Hm. unfold sort_desc. rewrite sort_sorted_id_acc by exact H4. cbn [app].
      apply firstn_all2. exact H1.
    - apply merge_ok. split; constructor.
    - rewrite Hm. exact Hextra. }
  rewrite Hr. reflexivity.
Qed.

Lemma merge_reimport_witness :
  (forall l, parse mem_backend (stringify mem_backend l) = Some l)
  /\ mergeAndSaveHistory mem_backend [sample_item 4 "b" 0]
       (snd (mergeAndSaveHistory mem_backend [sample_item 3 "a" 1; sample_item 4 "b" 0]
               (Build_Store (B := mem_backend) true (Some [sample_item 3 "a" 0]))))
     = mergeAndSaveHistory mem_backend [sample_item 3 "a" 1; sample_item 4 "b" 0]
         (Build_Store (B := mem_backend) true (Some [sample_item 3 "a" 0])).
Proof.
  split; [intros; reflexivity|].
  apply (merge_reimport mem_backend (fun l => eq_refl) (fun l => eq_refl) (fun v => eq_refl)).
  - reflexivity.
  - intros x [<-|[]]. simpl. left. reflexivity.
Defined.

End HistoryExtras.

Module Base64Extras.
Import JsString Base64.
Local Open Scope N_scope.

Ltac nsplit :=
  repeat match goal with
  | |- context [N.ltb ?a ?b] => destruct (N.ltb_spec a b)
  | |- context [N.leb ?a ?b] => destruct (N.leb_spec a b)
  | |- context [N.eqb ?a ?b] => destruct (N.eqb_spec a b)
  end; cbn [andb orb].

Lemma char_value (v : N) : v < 64 -> b64_value (rfc4648_char v) = Some v.
Proof.
  intros H. unfold rfc4648_char.
  destruct (N.ltb_spec v 26); [|destruct (N.ltb_spec v 52); [|destruct (N.ltb_spec v 62); [|destruct (N.eqb_spec v 62)]]];
  unfold b64_value; nsplit; try lia; f_equal; lia.
Qed.

Lemma char_not_pad (v : N) : rfc4648_char v <> 61 /\ is_ascii_ws (rfc4648_char v) = false.
Proof.
  unfold rfc4648_char.
  destruct (N.ltb_spec v 26); [|destruct (N.ltb_spec v 52); [|destruct (N.ltb_spec v 62); [|destruct (N.eqb_spec v 62)]]];
  unfold is_ascii_ws; split; nsplit; try lia; reflexivity.
Qed.

Lemma push4 (x y z : N) (o : list N) : x < 256 -> y < 256 -> z < 256 ->
  let n := x * 65536 + y * 256 + z in
  fold_left push [n / 262144; (n / 4096) mod 64; (n / 64) mod 64; n mod 64]
    {| buf := 0; bits := 0; out := o |} = {| buf := 0; bits := 0; out := o ++ [x; y; z] |}.
Proof.
  intros Hx Hy Hz n. cbn. unfold push; cbn.
  f_equal. f_equal. f_equal; [|f_equal; [|f_equal]]; subst n; zify; Z.to_euclidean_division_equations; lia.
Qed.

Lemma push2 (x : N) (o : list N) : x < 256 ->
  let n := x * 16 in
  flush (fold_left push [n / 64; n mod 64] {| buf := 0; bits := 0; out := o |}) = o ++ [x].
Proof.
  intros Hx n. cbn. unfold push, flush; cbn. f_equal. f_equal.
  subst n; zify; Z.to_euclidean_division_equations; lia.
Qed.

Lemma push3 (x y : N) (o : list N) : x < 256 -> y < 256 ->
  let n := (x * 256 + y) * 4 in
  flush (fold_left push [n / 4096; (n / 64) mod 64; n mod 64] {| buf := 0; bits := 0; out := o |})
  = o ++ [x; y].
Proof.
  intros Hx Hy n. cbn. unfold push, flush; cbn. f_equal. f_equal; [|f_equal];
  subst n; zify; Z.to_euclidean_division_equations; lia.
Qed.

Lemma strip_padding_cases (s : jsstr) :
  strip_padding s =
  if Nat.eqb (List.length s mod 4) 0 then
    match rev s with
    | c :: t => if N.eqb c 61 then
                  match t with
                  | c' :: t' => if N.eqb c' 61 then rev t' else rev t
                  | [] => rev t
                  end
                else s
    | [] => s
    end
  else s.
Proof.
  unfold strip_padding. destruct (Nat.eqb _ 0); [|reflexivity].
  destruct (rev s) as [|c t]; [reflexivity|].
  destruct c as [|p]; [reflexivity|].
  repeat (destruct p as [p|p|]; try reflexivity).
  destruct t as [|c' t']; [reflexivity|].
  destruct c' as [|q]; [reflexivity|].
  repeat (destruct q as [q|q|]; try reflexivity).
Qed.

Lemma values_app (a b : jsstr) :
  values (a ++ b) = match values a, values b with
                    | Some x, Some y => Some (x ++ y)
                    | _, _ => None
                    end.
Proof.
  induction a as [|c a IH]; simpl.
  - destruct (values b); reflexivity.
  - rewrite IH. destruct (b64_value c), (values a), (values b); reflexivity.
Qed.

Lemma values_chars (vs : list N) :
  Forall (fun v => v < 64) vs -> values (map rfc4648_char vs) = Some vs.
Proof.
  induction 1 as [|v vs Hv _ IH]; simpl; [reflexivity|]. rewrite char_value, IH by exact Hv. reflexivity.
Qed.

Lemma triples (k : nat) (pre : list N) :
  List.length pre = (3 * k)%nat -> Forall (fun b => b < 256) pre ->
  (forall c, In c (rfc4648_encode pre) -> c <> 61 /\ is_ascii_ws c = false)
  /\ List.length (rfc4648_encode pre) = (4 * k)%nat
  /\ (forall t, rfc4648_encode (pre ++ t) = rfc4648_encode pre ++ rfc4648_encode t)
  /\ exists vs, values (rfc4648_encode pre) = Some vs
       /\ forall o, fold_left push vs {| buf := 0; bits := 0; out := o |}
                    = {| buf := 0; bits := 0; out := o ++ pre |}.
Proof.
  revert pre; induction k as [|k IH]; intros pre Hl Hb.
  - destruct pre; [|discriminate]. split; [intros c []|split; [reflexivity|split; [reflexivity|]]].
    exists []. split; [reflexivity|]. intros o. rewrite app_nil_r. reflexivity.
  - destruct pre as [|x [|y [|z r]]]; try (simpl in Hl; lia).
    simpl in Hl. inversion Hb as [|? ? Hx Hb1]; inversion Hb1 as [|? ? Hy Hb2];
      inversion Hb2 as [|? ? Hz Hr]; subst.
    destruct (IH r ltac:(lia) Hr) as [Hc [Hlen [Happ [vs [Hv Hf]]]]].
    set (n := x * 65536 + y * 256 + z).
    assert (E : rfc4648_encode (x :: y :: z :: r)
                = map rfc4648_char [n / 262144; (n / 4096) mod 64; (n / 64) mod 64; n mod 64]
                  ++ rfc4648_encode r) by reflexivity.
    rewrite E. split; [|split; [|split]].
    + intros c Hin. apply in_app_or in Hin as [Hin|Hin]; [|exact (Hc c Hin)].
      apply in_map_iff in Hin as [v [<- _]]. apply char_not_pad.
    + rewrite length_app, Hlen. simpl. lia.
    + intros t. rewrite <- app_assoc. simpl. rewrite Happ. reflexivity.
    + exists ([n / 262144; (n / 4096) mod 64; (n / 64) mod 64; n mod 64] ++ vs). split.
      * rewrite values_app, values_chars, Hv; [reflexivity|].
        repeat constructor; subst n; zify; Z.to_euclidean_division_equations; lia.
      * intros o. rewrite fold_left_app. pose proof (push4 x y z o Hx Hy Hz) as P. cbv zeta in P. fold n in P.
        rewrite P.
        rewrite Hf, <- app_assoc. reflexivity.
Qed.

Lemma filter_ws_id (s : jsstr) :
  (forall c, In c s -> is_ascii_ws c = false) -> filter (fun c => negb (is_ascii_ws c)) s = s.
Proof.
  induction s as [|c s IH]; intros H; simpl; [reflexivity|].
  rewrite (H c (or_introl eq_refl)). simpl. rewrite IH; [reflexivity|]. intros d Hd. apply H. right. exact Hd.
Qed.

Lemma map_mod_256 (l : list N) : Forall (fun b => b < 256) l -> map (fun c => c mod 256) l = l.
Proof. induction 1 as [|b l Hb _ IH]; simpl; [reflexivity|]. rewrite N.mod_small, IH by exact Hb. reflexivity. Qed.

Lemma strip_nopad (s : jsstr) : (forall c, In c s -> c <> 61) -> strip_padding s = s.
Proof.
  intros H. rewrite strip_padding_cases. destruct (Nat.eqb _ 0); [|reflexivity].
  destruct (rev s) as [|c r] eqn:R; [reflexivity|].
  destruct (N.eqb_spec c 61) as [E|E]; [|reflexivity].
  exfalso. apply (H c); [|exact E]. apply in_rev. rewrite R. left. reflexivity.
Qed.

Lemma mod4_add (k a : nat) : ((4 * k + a) mod 4 = a mod 4)%nat.
Proof. rewrite Nat.add_comm, Nat.mul_comm. apply Nat.Div0.mod_add. Qed.

Lemma decode_encode (bs : list N) (Hb : Forall (fun b => b < 256) bs) :
  decode (rfc4648_encode bs) = Some bs.
Proof.
  set (k := (List.length bs / 3)%nat).
  assert (Hs : bs = firstn (3 * k) bs ++ skipn (3 * k) bs) by (symmetry; apply firstn_skipn).
  assert (Hlp : List.length (firstn (3 * k) bs) = (3 * k)%nat).
  { apply firstn_length_le. subst k. pose proof (Nat.Div0.mul_div_le (List.length bs) 3). lia. }
  assert (Hlt : (List.length (skipn (3 * k) bs) < 3)%nat).
  { rewrite length_skipn. subst k. pose proof (Nat.mod_upper_bound (List.length bs) 3).
    pose proof (Nat.div_mod_eq (List.length bs) 3). lia. }
  clearbody k. rewrite Hs in Hb |- *. apply Forall_app in Hb as [Hbp Hbt].
  revert Hbp Hbt Hlp Hlt. generalize (firstn (3 * k) bs) as pre, (skipn (3 * k) bs) as tail.
  clear Hs bs. intros pre tail Hbp Hbt Hlp Hlt.
  destruct (triples k pre Hlp Hbp) as [Hc [Hlen [Happ [vs [Hv Hf]]]]].
  rewrite Happ. unfold decode, atob.
  change acc0 with {| buf := 0; bits := 0; out := [] |}.
  destruct tail as [|x [|y [|z t]]]; [| | |simpl in Hlt; lia].
  - cbn [rfc4648_encode]. rewrite !app_nil_r.
    rewrite filter_ws_id by (intros c Hin; exact (proj2 (Hc c Hin))).
    rewrite strip_nopad by (intros c Hin; exact (proj1 (Hc c Hin))).
    rewrite Hlen, (Nat.mul_comm 4 k), Nat.Div0.mod_mul. cbn [Nat.eqb].
    rewrite Hv, Hf. cbn. rewrite map_mod_256 by exact Hbp. reflexivity.
  - inversion Hbt as [|? ? Hx _]; subst.
    set (n := x * 16).
    change (rfc4648_encode [x]) with (map rfc4648_char [n / 64; n mod 64] ++ [61; 61]).
    rewrite filter_ws_id.
    2: { intros c Hin. apply in_app_or in Hin as [Hin|Hin]; [exact (proj2 (Hc c Hin))|].
         apply in_app_or in Hin as [Hin|[<-|[<-|[]]]]; [|reflexivity|reflexivity].
         apply in_map_iff in Hin as [v [<- _]]. apply char_not_pad. }
    rewrite strip_padding_cases, !length_app, Hlen.
    cbn [List.length map]. rewrite mod4_add. replace ((2 + 2) mod 4 =? 0)%nat with true by reflexivity.
    rewrite rev_app_distr. cbn [rev map app Nat.eqb N.eqb Pos.eqb].
    rewrite rev_involutive, <- !app_assoc. cbn [app].
    rewrite length_app, Hlen. cbn [List.length].
    rewrite mod4_add. replace (2 mod 4 =? 1)%nat with false by reflexivity.
    rewrite values_app, Hv.
    change [rfc4648_char (n / 64); rfc4648_char (n mod 64)] with (map rfc4648_char [n / 64; n mod 64]).
    rewrite values_chars by (repeat constructor; subst n; zify; Z.to_euclidean_division_equations; lia).
    rewrite fold_left_app, Hf. pose proof (push2 x pre Hx) as P. cbv zeta in P. fold n in P.
    cbn [app]. rewrite P. rewrite map_mod_256; [reflexivity|]. apply Forall_app. split; [exact Hbp|repeat constructor; exact Hx].
  - inversion Hbt as [|? ? Hx Hbt1]; inversion Hbt1 as [|? ? Hy _]; subst.
    set (n := (x * 256 + y) * 4).
    change (rfc4648_encode [x; y])
      with (map rfc4648_char [n / 4096; (n / 64) mod 64; n mod 64] ++ [61]).
    rewrite filter_ws_id.
    2: { intros c Hin. apply in_app_or in Hin as [Hin|Hin]; [exact (proj2 (Hc c Hin))|].
         apply in_app_or in Hin as [Hin|[<-|[]]]; [|reflexivity].
         apply in_map_iff in Hin as [v [<- _]]. apply char_not_pad. }
    rewrite strip_padding_cases, !length_app, Hlen.
    cbn [List.length map]. rewrite mod4_add. replace ((3 + 1) mod 4 =? 0)%nat with true by reflexivity.
    rewrite rev_app_distr. cbn [rev map app N.eqb Pos.eqb].
    destruct (char_not_pad (n mod 64)) as [H3 _]. apply N.eqb_neq in H3. rewrite H3.
    cbn [rev]. rewrite rev_involutive, <- !app_assoc. cbn [app].
    rewrite length_app, Hlen. cbn [List.length].
    rewrite mod4_add. replace (3 mod 4 =? 1)%nat with false by reflexivity.
    rewrite values_app, Hv.
    change [rfc4648_char (n / 4096); rfc4648_char ((n / 64) mod 64); rfc4648_char (n mod 64)]
      with (map rfc4648_char [n / 4096; (n / 64) mod 64; n mod 64]).
    rewrite values_chars by (repeat constructor; subst n; zify; Z.to_euclidean_division_equations; lia).
    rewrite fold_left_app, Hf. pose proof (push3 x y pre Hx Hy) as P. cbv zeta in P. fold n in P.
    cbn [app]. rewrite P. rewrite map_mod_256; [reflexivity|].
    apply Forall_app. split; [exact Hbp|repeat constructor; assumption].
Qed.

(** Decoding with [decode] the padded base64 text of RFC 4648 of a list of
    bytes gives back exactly those bytes: the forgiving [atob] removes the
    padding, the 6-bit groups are reassembled most significant first and
    the 2 or 4 fill bits of the last group are dropped. *)
Theorem decode_roundtrip (bs : list N) (Hb : Forall (fun b => b < 256) bs) :
  decode (rfc4648_encode bs) = Some bs.
Proof. exact (decode_encode bs Hb). Qed.

Lemma decode_roundtrip_witness :
  Forall (fun b => b < 256) [0; 255; 77; 97; 110]
  /\ decode (rfc4648_encode [0; 255; 77; 97; 110]) = Some [0; 255; 77; 97; 110].
Proof.
  assert (H : Forall (fun b => b < 256) [0; 255; 77; 97; 110]) by (repeat constructor).
  split; [exact H|]. exact (decode_roundtrip _ H).
Defined.

End Base64Extras.

Module AudioExtras.
Import Audio.

Lemma ta_set_length {A} (l : list A) (i : nat) (x : A) : List.length (ta_set l i x) = List.length l.
Proof. revert i; induction l as [|y l IH]; intros [|i]; simpl; auto. Qed.

Lemma ta_set_out {A} (l : list A) (i : nat) (x : A) : List.length l <= i -> ta_set l i x = l.
Proof.
  revert i; induction l as [|y l IH]; intros [|i] H; simpl in *; try reflexivity; [lia|].
  rewrite IH by lia. reflexivity.
Qed.

Lemma ta_set_mid {A} (a b : list A) (y x : A) (i : nat) :
  i = List.length a -> ta_set (a ++ y :: b) i x = a ++ x :: b.
Proof. intros ->. induction a as [|z a IH]; simpl; [reflexivity|]. rewrite IH. reflexivity. Qed.

Section Fill.
Variables (ints : list Z) (n c L : nat).
Hypothesis HL : L * n <= List.length ints.
Hypothesis Hn : 0 < n.

Lemma fill_done (fuel i : nat) (d : list num) :
  List.length d <= i -> fill_channel ints n c i fuel d = d.
Proof.
  revert i; induction fuel as [|f IH]; intros i H; simpl; [reflexivity|].
  destruct (Nat.ltb _ _); [|reflexivity]. rewrite ta_set_out by exact H. apply IH. lia.
Qed.

Lemma fill_ok (fuel i : nat) :
  i <= L -> L < i + fuel ->
  fill_channel ints n c i fuel
    (map (fun j => sample ints (j * n + c)) (seq 0 i) ++ repeat (Num 0) (L - i))
  = map (fun j => sample ints (j * n + c)) (seq 0 L).
Proof.
  revert i; induction fuel as [|f IH]; intros i Hi Hf; [lia|]. simpl.
  destruct (Nat.ltb_spec (i * n) (List.length ints)) as [Hlt|Hge].
  - destruct (Nat.eq_dec i L) as [->|Hne].
    + rewrite Nat.sub_diag, app_nil_r. rewrite ta_set_out by (rewrite length_map, length_seq; lia).
      apply fill_done. rewrite length_map, length_seq. lia.
    + replace (L - i) with (S (L - S i)) by lia. cbn [repeat].
      rewrite ta_set_mid by (rewrite length_map, length_seq; reflexivity).
      replace (map (fun j => sample ints (j * n + c)) (seq 0 i) ++ sample ints (i * n + c) :: repeat (Num 0) (L - S i))
        with (map (fun j => sample ints (j * n + c)) (seq 0 (S i)) ++ repeat (Num 0) (L - S i))
        by (rewrite seq_S, map_app, <- app_assoc; reflexivity).
      apply IH; lia.
  - assert (i = L) by (destruct (Nat.eq_dec i L); [assumption|]; nia). subst i.
    rewrite Nat.sub_diag, app_nil_r. reflexivity.
Qed.
End Fill.

Lemma pair_ind (P : list N -> Prop) :
  P [] -> (forall x, P [x]) -> (forall x y r, P r -> P (x :: y :: r)) -> forall l, P l.
Proof.
  intros H0 H1 H2 l. assert (G : P l /\ forall x, P (x :: l)).
  { induction l as [|y l [IH1 IH2]]; split; auto. }
  exact (proj1 G).
Qed.

Lemma int16_le_length (bs : list N) : List.length (int16_le bs) = (List.length bs / 2)%nat.
Proof.
  induction bs using pair_ind; [reflexivity|reflexivity|]. cbn [int16_le List.length].
  rewrite IHbs. replace (S (S (List.length bs))) with (List.length bs + 1 * 2)%nat by lia.
  rewrite Nat.div_add by lia. lia.
Qed.

Lemma int16_le_range (bs : list N) :
  Forall (fun b => (b < 256)%N) bs -> Forall (fun v => (-32768 <= v <= 32767)%Z) (int16_le bs).
Proof.
  induction bs as [| |x y r IH] using pair_ind; intros H; cbn [int16_le]; try constructor.
  - inversion H as [|? ? Hx H1]; inversion H1 as [|? ? Hy Hr]; subst.
    destruct (Z.leb_spec 32768 (Z.of_N (x + 256 * y))); lia.
  - apply IH. inversion H as [|? ? Hx H1]; inversion H1; assumption.
Qed.

Lemma nth_repeat_in {A} (x d : A) (k m : nat) : (k < m)%nat -> nth k (repeat x m) d = x.
Proof. revert k; induction m as [|m IH]; intros [|k] H; simpl; try lia; auto. apply IH. lia. Qed.

Lemma decode_audio_ok (max_channels : nat) (rate_supported : Z -> bool)
    (data : list N) (rate : Z) (n : nat)
    (Heven : Nat.even (List.length data) = true)
    (Hn : (1 <= n <= max_channels)%nat)
    (Hrate : rate_supported rate = true)
    (Hframes : (n <= List.length data / 2)%nat)
    (Hb : Forall (fun b => (b < 256)%N) data) :
  exists buffer,
    decodeAudioData max_channels rate_supported data rate n = Some buffer
    /\ numberOfChannels buffer = n
    /\ Audio.length buffer = ((List.length data / 2) / n)%nat
    /\ sampleRate buffer = rate
    /\ channels buffer
       = map (fun c => map (fun i => sample (int16_le data) (i * n + c))
                           (seq 0 ((List.length data / 2) / n)))
             (seq 0 n)
    /\ (forall c i, (c < n)%nat -> (i < (List.length data / 2) / n)%nat ->
        exists v, sample (int16_le data) (i * n + c) = Num (inject_Z v / inject_Z 32768)
                  /\ (-32768 <= v <= 32767)%Z).
Proof.
  set (ints := int16_le data). set (L := ((List.length data / 2) / n)%nat).
  assert (Hli : List.length ints = (List.length data / 2)%nat) by apply int16_le_length.
  assert (HL : (L * n <= List.length ints)%nat).
  { rewrite Hli. subst L. rewrite Nat.mul_comm. apply Nat.Div0.mul_div_le. }
  assert (HL1 : (1 <= L)%nat).
  { subst L. apply Nat.div_str_pos. lia. }
  unfold decodeAudioData, Int16Array. rewrite Heven. fold ints.
  replace (Nat.eqb n 0) with false by (symmetry; apply Nat.eqb_neq; lia).
  rewrite Hli. fold L. unfold createBuffer.
  replace (Nat.eqb n 0) with false by (symmetry; apply Nat.eqb_neq; lia).
  replace (Nat.ltb max_channels n) with false by (symmetry; apply Nat.ltb_ge; lia).
  replace (Nat.eqb L 0) with false by (symmetry; apply Nat.eqb_neq; lia).
  rewrite Hrate. cbn [orb negb].
  eexists. split; [reflexivity|]. cbn [numberOfChannels Audio.length sampleRate channels].
  split; [reflexivity|split; [reflexivity|split; [reflexivity|split]]].
  - apply map_ext_in. intros c Hc. apply in_seq in Hc.
    rewrite nth_repeat_in by lia.
    pose proof (fill_ok ints n c L HL ltac:(lia) (S (List.length ints)) 0 ltac:(lia) ltac:(nia)) as P.
    rewrite Nat.sub_0_r in P. cbn [seq map app] in P. first [exact P | rewrite Hli in P; exact P].
  - intros c i Hc Hi. unfold sample.
    assert (Hk : (i * n + c < List.length ints)%nat) by nia.
    destruct (nth_error ints (i * n + c)) as [v|] eqn:E.
    + exists v. split; [reflexivity|].
      apply nth_error_In in E. pose proof (int16_le_range data Hb) as R.
      rewrite Forall_forall in R. exact (R v E).
    + apply nth_error_None in E. lia.
Qed.

(** With an even number of bytes, a channel count between 1 and the
    supported maximum, a supported rate and at least one frame,
    [decodeAudioData] builds a buffer of [numChannels] channels of
    [length / 2 / numChannels] frames each (the truncated frame count)
    in which channel [c] holds the 16-bit samples [c], [c + numChannels],
    [c + 2 * numChannels], ... divided by 32768: the interleaved data is
    split by channel, and no sample is [NaN]; every sample value read lies
    between -32768 and 32767. *)
Theorem decode_audio_channels (max_channels : nat) (rate_supported : Z -> bool)
    (data : list N) (rate : Z) (n : nat)
    (Heven : Nat.even (List.length data) = true)
    (Hn : (1 <= n <= max_channels)%nat)
    (Hrate : rate_supported rate = true)
    (Hframes : (n <= List.length data / 2)%nat)
    (Hb : Forall (fun b => (b < 256)%N) data) :
  exists buffer,
    decodeAudioData max_channels rate_supported data rate n = Some buffer
    /\ numberOfChannels buffer = n
    /\ Audio.length buffer = ((List.length data / 2) / n)%nat
    /\ sampleRate buffer = rate
    /\ channels buffer
       = map (fun c => map (fun i => sample (int16_le data) (i * n + c))
                           (seq 0 ((List.length data / 2) / n)))
             (seq 0 n)
    /\ (forall c i, (c < n)%nat -> (i < (List.length data / 2) / n)%nat ->
        exists v, sample (int16_le data) (i * n + c) = Num (inject_Z v / inject_Z 32768)
                  /\ (-32768 <= v <= 32767)%Z).
Proof. exact (decode_audio_ok max_channels rate_supported data rate n Heven Hn Hrate Hframes Hb). Qed.

Lemma decode_audio_channels_witness :
  exists buffer,
    decodeAudioData 2 (fun r => Z.eqb r 24000) [1; 0; 2; 0; 3; 0; 4; 0]%N 24000 2 = Some buffer
    /\ channels buffer = [[sample [1; 2; 3; 4]%Z 0; sample [1; 2; 3; 4]%Z 2];
                          [sample [1; 2; 3; 4]%Z 1; sample [1; 2; 3; 4]%Z 3]].
Proof.
  destruct (decode_audio_channels 2 (fun r => Z.eqb r 24000) [1; 0; 2; 0; 3; 0; 4; 0]%N 24000 2)
    as [buffer [E [_ [_ [_ [C _]]]]]].
  - reflexivity.
  - lia.
  - reflexivity.
  - simpl. lia.
  - repeat constructor.
  - exists buffer. split; [exact E|]. rewrite C. reflexivity.
Defined.

(** [decodeAudioData] throws exactly when the byte length is odd (the
    [Int16Array] constructor), when there is no channel or more channels
    than the context supports, when there are fewer 16-bit samples than
    channels (a frame count of 0), or when the sample rate is not
    supported ([createBuffer]). *)
Theorem decode_audio_fails (max_channels : nat) (rate_supported : Z -> bool)
    (data : list N) (rate : Z) (n : nat) :
  decodeAudioData max_channels rate_supported data rate n = None
  <-> Nat.even (List.length data) = false \/ n = 0%nat \/ (max_channels < n)%nat
      \/ (List.length data / 2 < n)%nat \/ rate_supported rate = false.
Proof.
  unfold decodeAudioData, Int16Array.
  destruct (Nat.even (List.length data)) eqn:Ev; [|split; [intros _; left; reflexivity|reflexivity]].
  rewrite int16_le_length. unfold createBuffer.
  destruct (Nat.eqb_spec n 0) as [->|Hn0]; cbn [orb].
  - split; [intros _; right; left; reflexivity|reflexivity].
  - destruct (Nat.ltb_spec max_channels n) as [Hm|Hm]; cbn [orb].
    + split; [intros _; right; right; left; exact Hm|reflexivity].
    + destruct (Nat.eqb_spec (List.length data / 2 / n) 0) as [Hz|Hz]; cbn [orb].
      * apply Nat.div_small_iff in Hz; [|exact Hn0].
        split; [intros _; right; right; right; left; exact Hz|reflexivity].
      * destruct (rate_supported rate) eqn:Hr; cbn [negb].
        -- split; [discriminate|]. intros [H|[H|[H|[H|H]]]]; try discriminate; try lia.
           exfalso. apply Hz. apply Nat.div_small. exact H.
        -- split; [intros _; right; right; right; right; reflexivity|reflexivity].
Qed.

Lemma pcm_bytes (samples : list Z) :
  Forall (fun v => (-32768 <= v <= 32767)%Z) samples ->
  Forall (fun b => (b < 256)%N) (pcm_s16le samples)
  /\ List.length (pcm_s16le samples) = (2 * List.length samples)%nat
  /\ int16_le (pcm_s16le samples) = samples.
Proof.
  induction 1 as [|v vs Hv _ [IH1 [IH2 IH3]]]; [split; [constructor|split; reflexivity]|].
  unfold pcm_s16le in *. cbn [flat_map]. fold (pcm_s16le vs) in *.
  set (w := Z.to_N (if Z.ltb v 0 then v + 65536 else v)%Z).
  assert (Hw : (Z.of_N w = if Z.ltb v 0 then v + 65536 else v)%Z).
  { subst w. destruct (Z.ltb_spec v 0); apply Z2N.id; lia. }
  assert (Hw2 : (w < 65536)%N) by (destruct (Z.ltb_spec v 0); lia).
  split; [|split].
  - constructor; [|constructor; [|exact IH1]].
    + apply N.mod_lt. discriminate.
    + apply N.Div0.div_lt_upper_bound. lia.
  - cbn [app List.length]. rewrite IH2. lia.
  - cbn [app int16_le]. rewrite IH3. f_equal.
    replace (w mod 256 + 256 * (w / 256))%N with w by (pose proof (N.div_mod w 256); lia).
    rewrite Hw. destruct (Z.ltb_spec v 0);
      match goal with |- context [Z.leb ?a ?b] => destruct (Z.leb_spec a b) end; lia.
Qed.

Lemma sample_seq (l : list Z) :
  map (sample l) (seq 0 (List.length l)) = map (fun v => Num (inject_Z v / inject_Z 32768)) l.
Proof.
  induction l as [|x l IH]; [reflexivity|].
  cbn [List.length seq map]. rewrite <- seq_shift, map_map. f_equal. exact IH.
Qed.

(** The audio path of the screens: for 16-bit samples (at least one),
    written as little-endian PCM and encoded in padded base64 as the speech
    API returns them, [decode] followed by [decodeAudioData] at 24000 Hz
    with one channel gives a one-channel buffer of one frame per sample
    whose data is each sample divided by 32768, when the context supports
    that rate. *)
Theorem speech_pipeline (max_channels : nat) (rate_supported : Z -> bool) (samples : list Z)
    (Hs : Forall (fun v => (-32768 <= v <= 32767)%Z) samples)
    (Hne : samples <> [])
    (Hmax : (1 <= max_channels)%nat)
    (Hrate : rate_supported 24000%Z = true) :
  exists buffer,
    match Base64.decode (Base64.rfc4648_encode (pcm_s16le samples)) with
    | Some audioData => decodeAudioData max_channels rate_supported audioData 24000 1
    | None => None
    end = Some buffer
    /\ numberOfChannels buffer = 1%nat
    /\ Audio.length buffer = List.length samples
    /\ sampleRate buffer = 24000%Z
    /\ channels buffer = [map (fun v => Num (inject_Z v / inject_Z 32768)) samples].
Proof.
  destruct (pcm_bytes samples Hs) as [Hb [Hl Hi]].
  rewrite (Base64Extras.decode_encode _ Hb).
  assert (Hlen : (List.length (pcm_s16le samples) / 2 = List.length samples)%nat).
  { rewrite Hl, Nat.mul_comm. apply Nat.div_mul. lia. }
  assert (Hpos : (1 <= List.length samples)%nat).
  { destruct samples; [contradiction|simpl; lia]. }
  destruct (decode_audio_ok max_channels rate_supported (pcm_s16le samples) 24000 1)
    as [buffer [E [H1 [H2 [H3 [H4 _]]]]]].
  - rewrite Hl, Nat.even_mul. reflexivity.
  - lia.
  - exact Hrate.
  - rewrite Hlen. exact Hpos.
  - exact Hb.
  - exists buffer. rewrite Hlen, Nat.div_1_r, Hi in *. split; [exact E|].
    split; [exact H1|split; [exact H2|split; [exact H3|]]].
    rewrite H4. cbn [seq map]. f_equal. rewrite <- sample_seq. apply map_ext. intros i.
    f_equal. lia.
Qed.

Lemma speech_pipeline_witness :
  exists buffer,
    match Base64.decode (Base64.rfc4648_encode (pcm_s16le [-32768; -1; 0; 32767]%Z)) with
    | Some audioData => decodeAudioData 1 (fun r => Z.eqb r 24000) audioData 24000 1
    | None => None
    end = Some buffer
    /\ channels buffer = [map (fun v => Num (inject_Z v / inject_Z 32768)) [-32768; -1; 0; 32767]%Z].
Proof.
  destruct (speech_pipeline 1 (fun r => Z.eqb r 24000) [-32768; -1; 0; 32767]%Z)
    as [buffer [E [_ [_ [_ C]]]]].
  - repeat constructor; discriminate.
  - discriminate.
  - lia.
  - reflexivity.
  - exists buffer. split; [exact E|exact C].
Defined.

End AudioExtras.

Module JsonExtras.
Import JsString JsonResponse RegexFacts StringFacts.

Lemma backtick_in_tail (c : N) (t ws : jsstr) :
  forallb is_ws (skipn 3 (c :: t ++ fence ++ ws)) = false.
Proof.
  replace (c :: t ++ fence ++ ws) with ((c :: t ++ [96; 96]) ++ 96 :: ws)%N
    by (cbn; rewrite <- app_assoc; reflexivity).
  rewrite skipn_app. replace (3 - List.length (c :: t ++ [96; 96]%N))%nat with 0%nat
    by (cbn [List.length]; rewrite length_app; cbn [List.length]; lia).
  cbn [skipn]. rewrite forallb_app. cbn [forallb]. rewrite andb_false_r. reflexivity.
Qed.

Lemma replace_nil (fuel pos : nat) : replace_go fuel pos [] = [].
Proof. destruct fuel; [reflexivity|]. simpl. unfold fence_at. simpl. rewrite andb_false_r. reflexivity. Qed.

(** After the start of input, only a final fence followed by whitespace is
    removed. *)
Lemma replace_tail (t ws : jsstr) (fuel pos : nat) :
  pos <> 0%nat -> forallb is_ws ws = true -> (List.length t < fuel)%nat ->
  replace_go fuel pos (t ++ fence ++ ws) = t.
Proof.
  intros Hpos Hws. revert fuel pos Hpos; induction t as [|c t IH]; intros fuel pos Hpos Hf;
    destruct fuel as [|f]; try (cbn in Hf; lia); cbn [replace_go].
  - unfold fence_at. replace (Nat.eqb pos 0) with false by (symmetry; apply Nat.eqb_neq; exact Hpos).
    cbn [andb app]. cbn [is_prefix fence u]. simpl. rewrite Hws. simpl.
    rewrite skipn_all2 by (cbn; lia). apply replace_nil.
  - unfold fence_at. replace (Nat.eqb pos 0) with false by (symmetry; apply Nat.eqb_neq; exact Hpos).
    cbn [andb]. rewrite <- app_comm_cons, backtick_in_tail, andb_false_r.
    f_equal. apply IH; [lia|cbn in Hf; lia].
Qed.

Lemma ws_not_j (w : N) : is_ws w = true -> (106 =? w)%N = false.
Proof. intros H. destruct (N.eqb_spec 106 w) as [<-|]; [discriminate|reflexivity]. Qed.

Lemma prefix_app_split (p t r : jsstr) :
  is_prefix p (t ++ r) = true ->
  is_prefix p t = true \/ ((List.length t < List.length p)%nat /\ is_prefix (skipn (List.length t) p) r = true).
Proof.
  revert p; induction t as [|c t IH]; intros p H.
  - destruct p; [left; reflexivity|right]. split; [cbn; lia|exact H].
  - destruct p as [|x p]; [left; reflexivity|]. cbn in H |- *.
    apply andb_prop in H as [Hx H]. rewrite Hx. cbn [andb].
    destruct (IH p H) as [E|[Hl E]]; [left; exact E|right; split; [lia|exact E]].
Qed.

Lemma no_json_fence (t ws : jsstr) :
  is_prefix fence_json t = false -> forallb is_ws ws = true ->
  is_prefix fence_json (t ++ fence ++ ws) = false.
Proof.
  intros Ht Hws. destruct (is_prefix fence_json (t ++ fence ++ ws)) eqn:E; [|reflexivity].
  exfalso. apply prefix_app_split in E as [E|[Hl E]]; [congruence|].
  change (List.length fence_json) with 7%nat in Hl.
  destruct (List.length t) as [|[|[|[|[|[|[|k]]]]]]]; try lia; try discriminate E.
  destruct ws as [|w ws]; [discriminate E|]. cbn [forallb] in Hws. apply andb_prop in Hws as [Hw _].
  change ((106 =? w)%N && is_prefix (u "son") ws = true) in E. rewrite (ws_not_j w Hw) in E. discriminate E.
Qed.

Lemma drop_while_app_stop (f : N -> bool) (a b : jsstr) (c : N) :
  f c = false -> drop_while f (a ++ c :: b) = drop_while f a ++ c :: b.
Proof.
  intros Hc. induction a as [|x a IH]; simpl; [rewrite Hc; reflexivity|].
  destruct (f x); [exact IH|reflexivity].
Qed.

Lemma skipn_take_while (f : N -> bool) (l : jsstr) :
  skipn (List.length (take_while f l)) l = drop_while f l.
Proof. induction l as [|x l IH]; simpl; [reflexivity|]. destruct (f x); [exact IH|reflexivity]. Qed.

Lemma drop_while_length (f : N -> bool) (l : jsstr) :
  (List.length (drop_while f l) <= List.length l)%nat.
Proof. induction l as [|x l IH]; simpl; [lia|]. destruct (f x); simpl; lia. Qed.

Lemma trim_drop_ws (t : jsstr) : trim (drop_while is_ws t) = trim t.
Proof. unfold trim. rewrite <- drop_ws_drop_while, drop_ws_idem. reflexivity. Qed.

Lemma no_backtick_prefix (p s : jsstr) : ~ In 96%N s -> is_prefix (96%N :: p) s = false.
Proof.
  intros H. destruct s as [|c s]; [reflexivity|]. cbn [is_prefix].
  destruct (N.eqb_spec 96 c) as [<-|]; [exfalso; apply H; left; reflexivity|reflexivity].
Qed.

Lemma replace_plain (s : jsstr) (fuel pos : nat) : ~ In 96%N s -> replace_go fuel pos s = s.
Proof.
  revert fuel pos; induction s as [|c s IH]; intros fuel pos H; destruct fuel as [|f];
    try reflexivity; [apply replace_nil|].
  cbn [replace_go]. unfold fence_at.
  change fence_json with (96%N :: u "``json"). change fence with (96%N :: u "``").
  rewrite !no_backtick_prefix by exact H. rewrite andb_false_r. cbn [andb].
  f_equal. apply IH. intros Hin. apply H. right. exact Hin.
Qed.

Section Parse.
Variable T : Type.
Variable json_parse : jsstr -> option T.

(** A response with no backtick is parsed as it is, after [trim]. *)
Theorem json_plain (s : jsstr) (H : ~ In 96%N s) :
  parseJsonResponse T json_parse s = json_parse (trim s).
Proof. unfold parseJsonResponse, strip_fences. rewrite replace_plain by exact H. reflexivity. Qed.

(** A response wrapped in a [```json] fence at its start and a [```] fence
    followed only by whitespace at its end is parsed without the fences
    (the whitespace after [```json] included). Without the [```json] opening
    only the final fence is removed: an opening [```] with no language
    stays in the text given to [JSON.parse]. *)
Theorem json_fenced (t ws : jsstr) (Hws : forallb is_ws ws = true) :
  parseJsonResponse T json_parse (fence_json ++ t ++ fence ++ ws) = json_parse (trim t)
  /\ (is_prefix fence_json t = false ->
      parseJsonResponse T json_parse (t ++ fence ++ ws) = json_parse (trim t)).
Proof.
  unfold parseJsonResponse, strip_fences. split.
  - set (rest := t ++ fence ++ ws). cbn [replace_go]. unfold fence_at.
    rewrite (is_prefix_app fence_json fence_json rest eq_refl). cbn [Nat.eqb andb].
    change (skipn 7 (fence_json ++ rest)) with rest.
    rewrite Nat.add_0_l, (Nat.add_comm 7), <- skipn_skipn.
    change (skipn 7 (fence_json ++ rest)) with rest. rewrite skipn_take_while.
    subst rest. change (fence ++ ws) with (96%N :: (u "``" ++ ws)).
    rewrite drop_while_app_stop by reflexivity.
    change (96%N :: (u "``" ++ ws)) with (fence ++ ws).
    rewrite replace_tail; [apply f_equal, trim_drop_ws|lia|exact Hws|].
    pose proof (drop_while_length is_ws t). rewrite !length_app. cbn. lia.
  - intros Ht. destruct t as [|c t].
    + cbn [app replace_go]. unfold fence_at. rewrite (no_json_fence [] ws eq_refl Hws : is_prefix fence_json (fence ++ ws) = false).
      cbn [Nat.eqb andb app]. rewrite (is_prefix_app fence fence ws eq_refl).
      change (skipn 3 (fence ++ ws)) with ws. rewrite Hws. cbn [andb].
      rewrite skipn_all2 by lia. rewrite replace_nil. reflexivity.
    + cbn [app replace_go]. unfold fence_at.
      rewrite (no_json_fence (c :: t) ws Ht Hws : is_prefix fence_json (c :: t ++ fence ++ ws) = false).
      rewrite backtick_in_tail, !andb_false_r. cbn [andb].
      rewrite replace_tail; [reflexivity|lia|exact Hws|]. cbn [List.length]. rewrite !length_app. cbn. lia.
Qed.
End Parse.

Lemma json_plain_witness :
  parseJsonResponse jsstr (fun s => Some s) (u " [1] ") = Some (u "[1]").
Proof.
  rewrite (json_plain jsstr (fun s => Some s) (u " [1] ")); [reflexivity|].
  intros H. simpl in H. repeat destruct H as [H|H]; try discriminate H. exact H.
Defined.

Lemma json_fenced_witness :
  parseJsonResponse jsstr (fun s => Some s) (fence_json ++ (10%N :: u "[1]") ++ fence ++ [10%N])
    = Some (u "[1]")
  /\ parseJsonResponse jsstr (fun s => Some s) ((fence ++ 10%N :: u "[1]") ++ fence ++ [10%N])
    = Some (fence ++ 10%N :: u "[1]").
Proof.
  destruct (json_fenced jsstr (fun s => Some s) (10%N :: u "[1]") [10%N] eq_refl) as [H1 _].
  destruct (json_fenced jsstr (fun s => Some s) (fence ++ 10%N :: u "[1]") [10%N] eq_refl) as [_ H2].
  split; [rewrite H1; reflexivity|rewrite H2; reflexivity].
Defined.

End JsonExtras.

(* ------------------------------------------------------------------ *)
(** ** Further properties of the screens and of [App] *)

Module ScoreColorExtras.
Import JsString ScoreColors.

(** The result screen ([getScoreColors]) and the history list
    ([getScoreColorClasses]) put two scores in the same colour exactly
    when the other one does: both use the bands 80 and above, 50 to 79,
    and below 50. *)
Theorem score_colors_agree (s1 s2 : Z) :
  getScoreColors s1 = getScoreColors s2 <-> getScoreColorClasses s1 = getScoreColorClasses s2.
Proof.
  unfold getScoreColors, getScoreColorClasses.
  destruct (Z.leb 80 s1), (Z.leb 80 s2), (Z.leb 50 s1), (Z.leb 50 s2);
    split; intros H; try reflexivity; vm_compute in H; discriminate H.
Qed.

End ScoreColorExtras.

Module UiExtras.
Import JsString Practice Mcq StreamExtras.

(** [handleSubmit] calls [onCheck] exactly when the trimmed sentence is
    not empty, and then with the trimmed sentence, which is non-empty and
    has nothing left to trim. *)
Theorem submit_trimmed (sentence : jsstr) :
  (handleSubmit sentence = None <-> trim sentence = [])
  /\ (forall x, handleSubmit sentence = Some x -> x = trim sentence /\ x <> [] /\ trim x = x).
Proof.
  unfold handleSubmit. destruct (trim sentence) as [|c r] eqn:E; split.
  - split; reflexivity.
  - intros x H; discriminate.
  - split; discriminate.
  - intros x H. inversion H; subst x. split; [reflexivity|split; [discriminate|]].
    rewrite <- E. apply trim_trim.
Qed.

Lemma mcq_answered (c : nat) (evs : list McqEvent) (s : McqState) :
  selectedOptionIndex s <> None -> fold_left (mcq_step c) evs s = s.
Proof.
  revert s; induction evs as [|e evs IH]; intros s H; simpl; [reflexivity|].
  assert (E : mcq_step c s e = s).
  { destruct e; unfold mcq_step; destruct (selectedOptionIndex s); [reflexivity|contradiction|reflexivity|contradiction]. }
  rewrite E. apply IH, H.
Qed.

(** On the multiple-choice screen only the first event counts: after it,
    clicks and the answer button change nothing. [onComplete] is called
    once, with the clicked index, or with -1 when the answer button was
    used, and the selection is then the clicked option or the correct
    one. *)
Theorem mcq_single_answer (c : nat) (e : McqEvent) (evs : list McqEvent) :
  mcq_run c (e :: evs) = mcq_step c mcq_init e
  /\ completed (mcq_run c (e :: evs))
     = [match e with ClickOption index => Z.of_nat index | ShowAnswer => (-1)%Z end]
  /\ selectedOptionIndex (mcq_run c (e :: evs))
     = Some (match e with ClickOption index => index | ShowAnswer => c end).
Proof.
  assert (E : mcq_run c (e :: evs) = mcq_step c mcq_init e).
  { unfold mcq_run. cbn [fold_left]. apply mcq_answered. destruct e; discriminate. }
  rewrite E. split; [reflexivity|]. destruct e; split; reflexivity.
Qed.
(** The option buttons are all neutral before the first event. After it,
    the correct option, and only it, is shown green, and an option is
    shown red exactly when it was clicked first and is not the correct one;
    the answer button never makes an option red. *)
Theorem mcq_buttons (c : nat) (e : McqEvent) (evs : list McqEvent) (i : nat) :
  getButtonClass c (selectedOptionIndex (mcq_run c [])) i
    = u "bg-slate-700/50 border-slate-600 hover:bg-slate-600/50 hover:border-blue-500"
  /\ (getButtonClass c (selectedOptionIndex (mcq_run c (e :: evs))) i
        = u "bg-green-800/60 border-green-500 text-white" <-> i = c)
  /\ (getButtonClass c (selectedOptionIndex (mcq_run c (e :: evs))) i
        = u "bg-red-800/60 border-red-500 text-white" <-> e = ClickOption i /\ i <> c).
Proof.
  split; [reflexivity|].
  assert (E : mcq_run c (e :: evs) = mcq_step c mcq_init e).
  { unfold mcq_run. cbn [fold_left]. apply mcq_answered. destruct e; discriminate. }
  rewrite E. unfold getButtonClass.
  destruct e as [k|]; cbn [mcq_step mcq_init selectedOptionIndex];
    [destruct (Nat.eqb_spec i k) as [Ek|Ek]|]; destruct (Nat.eqb_spec i c) as [Ec|Ec]; cbn [andb negb];
    (split; split; intros H;
     [ try (vm_compute in H; discriminate H); try exact Ec; try reflexivity
     | try (subst; reflexivity); try (exfalso; exact (Ec H))
     | try (vm_compute in H; discriminate H)
     | try (destruct H as [H1 H2]; first [contradiction | injection H1; intros; subst; contradiction | discriminate H1])]).
  all: first [reflexivity | split; [rewrite Ek; reflexivity|exact Ec]].
Qed.

End UiExtras.

Module GrammarExtras.
Import JsString Grammar.

(** Once a fetch of the grammar file has given a non-empty list,
    [getGrammarPoints] answers every later call with that list without
    fetching again. Before it, each call fetches; a failed fetch makes it
    throw, and an empty list is not cached. *)
Theorem grammar_loaded_once (pre post : list FetchResult) (d : list GrammarPoint)
    (Hd : d <> [])
    (Hpre : Forall (fun r => forall d', r = Loaded d' -> d' = []) pre) :
  calls [] (pre ++ Loaded d :: post)
  = map (fun r => (match r with Loaded _ => Some [] | _ => None end, true)) pre
    ++ (Some d, true) :: map (fun _ => (Some d, false)) post.
Proof.
  induction Hpre as [|r pre Hr _ IH].
  - cbn [app calls getGrammarPoints loadGrammarData List.length Nat.ltb Nat.leb].
    cbn. f_equal.
    assert (Hl : Nat.ltb 0 (List.length d) = true).
    { destruct d; [contradiction|reflexivity]. }
    clear Hd. induction post as [|r post IHp]; [reflexivity|].
    cbn [calls map]. unfold getGrammarPoints, loadGrammarData. rewrite Hl. cbn. f_equal. exact IHp.
  - cbn [app calls map]. unfold getGrammarPoints at 1, loadGrammarData at 1. cbn [List.length Nat.ltb Nat.leb].
    destruct r as [| | |d']; cbn; try (f_equal; exact IH).
    rewrite (Hr d' eq_refl). f_equal. exact IH.
Qed.
Local Abbreviation gp := {| level := N5; grammar_point := u "a"; meaning_cn := u "b";
  usage := u "c"; example_ja := u "d"; example_cn := u "e"; note := u "f" |}.

Lemma grammar_loaded_once_witness :
  [gp] <> [] /\ Forall (fun r => forall d', r = Loaded d' -> d' = []) [FetchFailed; Loaded []]
  /\ calls [] ([FetchFailed; Loaded []] ++ Loaded [gp] :: [NotOk; FetchFailed])
     = map (fun r => (match r with Loaded _ => Some [] | _ => None end, true)) [FetchFailed; Loaded []]
       ++ (Some [gp], true) :: map (fun _ => (Some [gp], false)) [NotOk; FetchFailed].
Proof.
  assert (Hd : [gp] <> []) by discriminate.
  assert (Hpre : Forall (fun r => forall d', r = Loaded d' -> d' = []) [FetchFailed; Loaded []]).
  { constructor; [intros d' H; discriminate|]. constructor; [intros d' H; injection H; intros <-; reflexivity|constructor]. }
  split; [exact Hd|split; [exact Hpre|]].
  exact (grammar_loaded_once [FetchFailed; Loaded []] [NotOk; FetchFailed] [gp] Hd Hpre).
Defined.

Lemma Difficulty_eqb_eq (a b : Difficulty) : Difficulty_eqb a b = true <-> a = b.
Proof. destruct a, b; simpl; split; congruence. Qed.

Lemma in_relevant (all : list GrammarPoint) (d : Difficulty) (g : GrammarPoint) :
  In g (relevantGrammar all d) <-> In g all /\ level g = d.
Proof. unfold relevantGrammar. rewrite filter_In, Difficulty_eqb_eq. tauto. Qed.

Local Open Scope Z_scope.

Lemma pow2_add (a b : Z) : 0 <= a -> 0 <= b -> 2 ^ (a + b) = 2 ^ a * 2 ^ b.
Proof. intros Ha Hb. apply Z.pow_add_r; lia. Qed.

Lemma round_pos_case (x : Z) :
  0 < Z.log2 x - 52 ->
  let s := Z.log2 x - 52 in
  0 < x /\ 2 ^ (s - 1) * 2 ^ 53 <= x /\ 2 ^ s = 2 * 2 ^ (s - 1).
Proof.
  intros Hs s.
  assert (Hx : 0 < x).
  { destruct (Z.le_gt_cases x 0) as [H|H]; [|exact H].
    rewrite Z.log2_nonpos in Hs by exact H. lia. }
  destruct (Z.log2_spec x Hx) as [HL _].
  split; [exact Hx|split].
  - rewrite <- pow2_add by lia. replace (s - 1 + 53) with (Z.log2 x) by (unfold s; lia). exact HL.
  - rewrite <- Z.pow_succ_r by lia. f_equal. lia.
Qed.

Lemma round_nonneg (x : Z) : 0 <= x -> 0 <= round_binary64 x.
Proof.
  intros Hx. unfold round_binary64.
  destruct (Z.leb_spec (Z.log2 x - 52) 0) as [_|Hs]; [exact Hx|].
  assert (HP : 0 < 2 ^ (Z.log2 x - 52)) by (apply Z.pow_pos_nonneg; lia).
  assert (0 <= x / 2 ^ (Z.log2 x - 52)) by (apply Z.div_pos; lia).
  destruct (_ || _); apply Z.mul_nonneg_nonneg; lia.
Qed.

Lemma round_lt (x t : Z) :
  0 <= x -> 1 <= t < 2 ^ 53 -> x <= t * 2 ^ 1074 - t * 2 ^ 1021 ->
  round_binary64 x < t * 2 ^ 1074.
Proof.
  intros Hx Ht Hb.
  assert (E : 2 ^ 1074 = 2 ^ 1021 * 2 ^ 53) by (rewrite <- pow2_add by lia; reflexivity).
  assert (K0 : 0 < 2 ^ 1021) by (apply Z.pow_pos_nonneg; lia).
  assert (Hxt : x < t * 2 ^ 1074) by nia.
  unfold round_binary64.
  destruct (Z.leb_spec (Z.log2 x - 52) 0) as [_|Hs]; [exact Hxt|].
  destruct (round_pos_case x Hs) as [Hxp [HL HP]].
  set (s := Z.log2 x - 52) in *.
  assert (Hs1074 : s <= 1074).
  { destruct (Z.le_gt_cases s 1074) as [H|H]; [exact H|exfalso].
    assert (2 ^ 1074 <= 2 ^ (s - 1)) by (apply Z.pow_le_mono_r; lia).
    assert (2 ^ 53 * 2 ^ 1074 <= x) by nia. nia. }
  assert (HA : 2 ^ 1074 = 2 ^ (1074 - s) * 2 ^ s) by (rewrite <- pow2_add by lia; f_equal; lia).
  set (A := 2 ^ (1074 - s)) in *. set (P := 2 ^ s) in *. set (H := 2 ^ (s - 1)) in *.
  assert (HPpos : 0 < P) by (unfold P; apply Z.pow_pos_nonneg; lia).
  pose proof (Z.div_mod x P ltac:(lia)) as Hdm. pose proof (Z.mod_pos_bound x P HPpos) as Hr.
  set (q := x / P) in *. set (r := x mod P) in *.
  assert (HT : t * 2 ^ 1074 = (t * A) * P) by (rewrite HA; ring).
  rewrite HT in Hxt |- *.
  assert (Hq : q < t * A) by nia.
  destruct (Z.ltb H r || (Z.eqb r H && Z.odd q)) eqn:Hc.
  - assert (Hrh : H <= r).
    { destruct (Z.ltb_spec H r) as [Hlt|_]; [lia|].
      cbn [orb] in Hc. apply andb_prop in Hc as [Hc _]. apply Z.eqb_eq in Hc. lia. }
    destruct (Z.eq_dec (q + 1) (t * A)) as [Eq|Ne].
    + exfalso.
      assert (Hx2 : x = t * A * P - P + r) by (rewrite Hdm, <- Eq; ring).
      assert (HU : t * 2 ^ 1021 <= H) by lia.
      assert (t * 2 ^ 1021 * 2 ^ 53 <= H * 2 ^ 53) by (apply Z.mul_le_mono_nonneg_r; lia).
      assert (t * 2 ^ 1074 = t * 2 ^ 1021 * 2 ^ 53) by (rewrite E; ring).
      lia.
    + apply Z.mul_lt_mono_pos_r; lia.
  - nia.
Qed.

Lemma round_ge (x t : Z) :
  0 <= t -> t * 2 ^ 1074 <= x -> x < 2 ^ 1127 -> t * 2 ^ 1074 <= round_binary64 x.
Proof.
  intros Ht Hb Hx1. unfold round_binary64.
  destruct (Z.leb_spec (Z.log2 x - 52) 0) as [_|Hs]; [exact Hb|].
  destruct (round_pos_case x Hs) as [Hxp [HL HP]].
  set (s := Z.log2 x - 52) in *.
  assert (Hs1074 : s <= 1074).
  { destruct (Z.le_gt_cases s 1074) as [H|H]; [exact H|exfalso].
    assert (2 ^ 1074 <= 2 ^ (s - 1)) by (apply Z.pow_le_mono_r; lia).
    assert (E : 2 ^ 1127 = 2 ^ 1074 * 2 ^ 53) by (rewrite <- pow2_add by lia; reflexivity).
    assert (0 < 2 ^ 53) by lia. nia. }
  assert (HA : 2 ^ 1074 = 2 ^ (1074 - s) * 2 ^ s) by (rewrite <- pow2_add by lia; f_equal; lia).
  set (A := 2 ^ (1074 - s)) in *. set (P := 2 ^ s) in *.
  assert (HPpos : 0 < P) by (unfold P; apply Z.pow_pos_nonneg; lia).
  assert (HAp : 0 < A) by (unfold A; apply Z.pow_pos_nonneg; lia).
  assert (Hq : t * A <= x / P).
  { apply Z.div_le_lower_bound; [exact HPpos|]. rewrite HA in Hb. nia. }
  rewrite HA.
  destruct (_ || _); nia.
Qed.

Lemma length_relevant (all : list GrammarPoint) (d : Difficulty) :
  (List.length (relevantGrammar all d) <= List.length all)%nat.
Proof. apply filter_length_le. Qed.

(** The index [Math.floor(x * 2^-1074)] for a product [x] below [n]. *)
Lemma index_in (x n : Z) : 0 <= x -> round_binary64 x < n * 2 ^ 1074 ->
  0 <= round_binary64 x / 2 ^ 1074 < n.
Proof.
  intros Hx Hlt. pose proof (round_nonneg x Hx).
  split; [apply Z.div_pos; lia|]. apply Z.div_lt_upper_bound; lia.
Qed.

Lemma random_bound (mant exp : Z) :
  0 <= mant < 2 ^ 53 -> 0 <= exp <= 1074 -> mant < 2 ^ exp ->
  0 <= mant * 2 ^ (1074 - exp) <= 2 ^ 1074 - 2 ^ 1021.
Proof.
  intros Hm He Hr.
  assert (HB : 0 < 2 ^ (1074 - exp)) by (apply Z.pow_pos_nonneg; lia).
  split; [nia|].
  destruct (Z.le_gt_cases exp 53) as [Hl|Hg].
  - assert (E : 2 ^ 1074 = 2 ^ exp * 2 ^ (1074 - exp)) by (rewrite <- pow2_add by lia; f_equal; lia).
    assert (2 ^ 1021 <= 2 ^ (1074 - exp)) by (apply Z.pow_le_mono_r; lia).
    nia.
  - assert (E : 2 ^ 1074 = 2 ^ 53 * 2 ^ 1021) by (rewrite <- pow2_add by lia; reflexivity).
    assert (2 ^ (1074 - exp) <= 2 ^ 1021) by (apply Z.pow_le_mono_r; lia).
    nia.
Qed.

(** For every value of [Math.random()] (a binary64 number of [[0, 1)]) and
    fewer than [2^32] loaded grammar points (the length limit of a
    JavaScript array), the grammar point chosen for a new exercise, the
    product being rounded to binary64, is absent exactly when no loaded
    point has the requested level; otherwise it is one of the loaded points,
    of the requested level: the index stays below the number of such
    points. *)
Theorem grammar_pick (allGrammarPoints : list GrammarPoint) (difficulty : Difficulty)
    (mant exp : Z)
    (Hlen : Z.of_nat (List.length allGrammarPoints) < 2 ^ 32)
    (Hm : 0 <= mant < 2 ^ 53) (He : 0 <= exp <= 1074) (Hr : mant < 2 ^ exp) :
  (grammarPoint allGrammarPoints difficulty mant exp = None
   <-> forall p, In p allGrammarPoints -> level p <> difficulty)
  /\ (forall g, grammarPoint allGrammarPoints difficulty mant exp = Some g ->
       In g allGrammarPoints /\ level g = difficulty).
Proof.
  pose proof (length_relevant allGrammarPoints difficulty) as Hle.
  unfold grammarPoint. set (rel := relevantGrammar allGrammarPoints difficulty) in *.
  destruct (Nat.ltb_spec 0 (List.length rel)) as [Hn|Hn].
  - set (n := Z.of_nat (List.length rel)).
    pose proof (random_bound mant exp Hm He Hr) as [B0 B1].
    assert (Hn1 : 1 <= n < 2 ^ 53) by (unfold n; lia).
    assert (Hx : 0 <= mant * 2 ^ (1074 - exp) * n) by nia.
    assert (Hb : mant * 2 ^ (1074 - exp) * n <= n * 2 ^ 1074 - n * 2 ^ 1021) by nia.
    destruct (index_in _ n Hx (round_lt _ n Hx Hn1 Hb)) as [I0 I1].
    unfold js_index. destruct (Z.ltb_spec (round_binary64 (mant * 2 ^ (1074 - exp) * n) / 2 ^ 1074) 0) as [N|_]; [lia|].
    destruct (nth_error rel _) as [g|] eqn:Eg.
    + split.
      * split; [discriminate|]. intros Hall. apply nth_error_In in Eg.
        apply in_relevant in Eg as [Ea El]. exfalso. exact (Hall g Ea El).
      * intros g' Hg. injection Hg as <-. apply in_relevant, (nth_error_In _ _ Eg).
    + exfalso. apply nth_error_None in Eg. unfold n in *. lia.
  - split; [|discriminate]. split; [intros _|reflexivity].
    intros p Hp Hl. assert (Hin : In p rel) by (apply in_relevant; split; assumption).
    destruct rel; [destruct Hin|simpl in Hn; lia].
Qed.

(** Every loaded grammar point of the requested level can be chosen: of
    the [n] points of that level, the [i]-th is chosen when [Math.random()]
    returns [ceil(i * 2^53 / n) / 2^53], the least multiple of [2^-53] not
    below [i / n], a binary64 number of [[0, 1)]. *)
Theorem grammar_pick_each (allGrammarPoints : list GrammarPoint) (difficulty : Difficulty)
    (i : nat) (g : GrammarPoint)
    (Hlen : Z.of_nat (List.length allGrammarPoints) < 2 ^ 32)
    (Hi : nth_error (relevantGrammar allGrammarPoints difficulty) i = Some g) :
  let n := Z.of_nat (List.length (relevantGrammar allGrammarPoints difficulty)) in
  let mant := (Z.of_nat i * 2 ^ 53 + n - 1) / n in
  0 <= mant < 2 ^ 53
  /\ grammarPoint allGrammarPoints difficulty mant 53 = Some g.
Proof.
  intros n mant. pose proof (length_relevant allGrammarPoints difficulty) as Hle.
  set (rel := relevantGrammar allGrammarPoints difficulty) in *.
  assert (Hlt : (i < List.length rel)%nat) by (apply nth_error_Some; rewrite Hi; discriminate).
  assert (Hn : 1 <= n < 2 ^ 32) by (unfold n; lia).
  set (a := Z.of_nat i) in *.
  assert (Ha : 0 <= a < n) by (unfold a, n; lia).
  pose proof (Z.div_mod (a * 2 ^ 53 + n - 1) n ltac:(lia)) as Hdm.
  pose proof (Z.mod_pos_bound (a * 2 ^ 53 + n - 1) n ltac:(lia)) as Hrm.
  fold mant in Hdm.
  assert (Hc1 : a * 2 ^ 53 <= n * mant) by lia.
  assert (Hc2 : n * mant <= a * 2 ^ 53 + n - 1) by lia.
  assert (Hm : 0 <= mant < 2 ^ 53) by nia.
  split; [exact Hm|].
  unfold grammarPoint. fold rel. destruct (Nat.ltb_spec 0 (List.length rel)) as [_|N]; [|lia].
  fold n.
  assert (E53 : 2 ^ (1074 - 53) = 2 ^ 1021) by reflexivity. rewrite E53.
  assert (E : 2 ^ 1074 = 2 ^ 53 * 2 ^ 1021) by (rewrite <- pow2_add by lia; reflexivity).
  assert (K0 : 0 < 2 ^ 1021) by (apply Z.pow_pos_nonneg; lia).
  set (x := mant * 2 ^ 1021 * n).
  assert (Hx : 0 <= x) by (unfold x; nia).
  assert (Lo : a * 2 ^ 1074 <= x) by (unfold x; rewrite E; nia).
  assert (Hi2 : x <= (a + 1) * 2 ^ 1074 - (a + 1) * 2 ^ 1021) by (unfold x; rewrite E; nia).
  assert (Hx1 : x < 2 ^ 1127).
  { assert (E2 : 2 ^ 1127 = 2 ^ 53 * 2 ^ 1021 * 2 ^ 53) by (rewrite <- !pow2_add by lia; reflexivity).
    unfold x. nia. }
  pose proof (round_ge x a ltac:(lia) Lo Hx1) as R1.
  pose proof (round_lt x (a + 1) Hx ltac:(lia) Hi2) as R2.
  assert (Hidx : round_binary64 x / 2 ^ 1074 = a).
  { symmetry; apply Z.div_unique with (r := round_binary64 x - a * 2 ^ 1074); [left; lia|ring]. }
  unfold js_index. rewrite Hidx. destruct (Z.ltb_spec a 0); [lia|].
  unfold a. rewrite Nat2Z.id. exact Hi.
Qed.

Local Abbreviation gp2 := {| level := N4; grammar_point := u "g"; meaning_cn := u "b";
  usage := u "c"; example_ja := u "d"; example_cn := u "e"; note := u "f" |}.

Lemma grammar_pick_witness :
  Z.of_nat (List.length [gp2; gp]) < 2 ^ 32 /\ 0 <= 1 < 2 ^ 53 /\ 0 <= 1 <= 1074 /\ 1 < 2 ^ 1
  /\ ((grammarPoint [gp2; gp] N5 1 1 = None
       <-> forall p, In p [gp2; gp] -> level p <> N5)
      /\ (forall g, grammarPoint [gp2; gp] N5 1 1 = Some g ->
           In g [gp2; gp] /\ level g = N5)).
Proof.
  assert (Hl : Z.of_nat (List.length [gp2; gp]) < 2 ^ 32) by (simpl; lia).
  assert (Hm : 0 <= 1 < 2 ^ 53) by lia.
  assert (He : 0 <= 1 <= 1074) by lia.
  assert (Hr : 1 < 2 ^ 1) by reflexivity.
  split; [exact Hl|split; [exact Hm|split; [exact He|split; [exact Hr|]]]].
  exact (grammar_pick [gp2; gp] N5 1 1 Hl Hm He Hr).
Defined.

Lemma grammar_pick_each_witness :
  Z.of_nat (List.length [gp; gp2; gp]) < 2 ^ 32
  /\ nth_error (relevantGrammar [gp; gp2; gp] N5) 1 = Some gp
  /\ (let n := Z.of_nat (List.length (relevantGrammar [gp; gp2; gp] N5)) in
      let mant := (Z.of_nat 1 * 2 ^ 53 + n - 1) / n in
      0 <= mant < 2 ^ 53 /\ grammarPoint [gp; gp2; gp] N5 mant 53 = Some gp).
Proof.
  assert (Hl : Z.of_nat (List.length [gp; gp2; gp]) < 2 ^ 32) by (simpl; lia).
  assert (Hi : nth_error (relevantGrammar [gp; gp2; gp] N5) 1 = Some gp) by reflexivity.
  split; [exact Hl|split; [exact Hi|exact (grammar_pick_each [gp; gp2; gp] N5 1 gp Hl Hi)]].
Defined.

End GrammarExtras.

Module SelectionExtras.
Import JsString History Selection HistoryExtras.

Lemma set_has_in (s : list (option jsstr)) (x : option jsstr) : set_has s x = true <-> In x s.
Proof.
  unfold set_has. rewrite existsb_exists. split.
  - intros [y [Hy E]]. apply opt_jsstr_eqb_eq in E. subst. exact Hy.
  - intros H. exists x. split; [exact H|]. apply opt_jsstr_eqb_eq. reflexivity.
Qed.

Lemma set_add_spec (s : list (option jsstr)) (x : option jsstr) :
  set_add s x = if set_has s x then s else s ++ [x].
Proof. reflexivity. Qed.

Lemma NoDup_snoc {A} (l : list A) (x : A) : NoDup l -> ~ In x l -> NoDup (l ++ [x]).
Proof. intros H Hx. apply (Permutation_NoDup (Permutation_cons_append l x)). constructor; assumption. Qed.

Lemma fold_set_add (l acc : list (option jsstr)) :
  NoDup acc ->
  (forall y, In y (fold_left set_add l acc) <-> In y acc \/ In y l)
  /\ NoDup (fold_left set_add l acc)
  /\ List.length (fold_left set_add l acc) <= List.length acc + List.length l
  /\ (List.length (fold_left set_add l acc) = List.length acc + List.length l <-> NoDup (acc ++ l)).
Proof.
  revert acc; induction l as [|x l IH]; intros acc Hn; cbn [fold_left].
  - rewrite app_nil_r. split; [intros y; simpl; tauto|split; [exact Hn|]]. simpl.
    split; [lia|]. split; [intros _; exact Hn|lia].
  - rewrite (set_add_spec acc x). destruct (set_has acc x) eqn:Hx.
    + apply set_has_in in Hx. destruct (IH acc Hn) as [H1 [H2 [H3 H4]]].
      split; [intros y; rewrite H1; simpl; split; [tauto|intros [H|[<-|H]]; tauto]|].
      split; [exact H2|]. simpl. split; [lia|]. split; [lia|].
      intros D. exfalso. apply NoDup_remove_2 in D. apply D. apply in_or_app. left. exact Hx.
    + assert (Hx' : ~ In x acc) by (rewrite <- set_has_in, Hx; discriminate).
      destruct (IH (acc ++ [x]) (NoDup_snoc acc x Hn Hx')) as [H1 [H2 [H3 H4]]].
      rewrite length_app, <- app_assoc in *. simpl in *.
      split; [intros y; rewrite H1, in_app_iff; simpl; tauto|].
      split; [exact H2|]. split; [lia|]. rewrite <- H4. lia.
Qed.

Lemma set_of_spec (l : list (option jsstr)) :
  (forall y, In y (set_of l) <-> In y l) /\ NoDup (set_of l)
  /\ (List.length (set_of l) = List.length l <-> NoDup l).
Proof.
  destruct (fold_set_add l [] (NoDup_nil _)) as [H1 [H2 [_ H4]]]. unfold set_of.
  split; [intros y; rewrite H1; simpl; tauto|split; [exact H2|exact H4]].
Qed.

(** With nothing selected, "select all" selects each id of the history
    once. Pressing it a second time clears the selection only when the ids
    of the history are pairwise distinct; with a repeated id it selects the
    same ids again. *)
Theorem select_all_twice (h : list HistoryItem) :
  (forall x, In x (handleSelectAll h []) <-> In x (map id h))
  /\ NoDup (handleSelectAll h [])
  /\ (handleSelectAll h (handleSelectAll h []) = [] <-> NoDup (map id h)).
Proof.
  destruct h as [|it h].
  - split; [tauto|split; [constructor|]]. split; intros _; [constructor|reflexivity].
  - destruct (set_of_spec (map id (it :: h))) as [H1 [H2 H3]].
    assert (E0 : handleSelectAll (it :: h) [] = set_of (map id (it :: h))) by reflexivity.
    rewrite E0. split; [exact H1|split; [exact H2|]]. unfold handleSelectAll.
    rewrite length_map in H3. destruct (Nat.eqb_spec (List.length (set_of (map id (it :: h)))) (List.length (it :: h))) as [E|E].
    + split; [intros _; apply H3, E|reflexivity].
    + split; [|intros D; exfalso; apply E, H3, D].
      intros Z. assert (In (id it) (set_of (map id (it :: h)))) by (apply H1; left; reflexivity).
      rewrite Z in H. destruct H.
Qed.

Lemma set_delete_in (s : list (option jsstr)) (x y : option jsstr) :
  In y (set_delete s x) <-> In y s /\ y <> x.
Proof.
  unfold set_delete. rewrite filter_In. destruct (opt_jsstr_eqb x y) eqn:E; simpl.
  - apply opt_jsstr_eqb_eq in E. subst. split; intros [_ H]; [discriminate H|exfalso; apply H; reflexivity].
  - split; intros [H1 H2]; split; auto. intros Heq. subst. rewrite (proj2 (opt_jsstr_eqb_eq _ _) eq_refl) in E. discriminate.
Qed.

Lemma set_delete_absent (s : list (option jsstr)) (x : option jsstr) : ~ In x s -> set_delete s x = s.
Proof.
  unfold set_delete. induction s as [|y s IH]; intros H; [reflexivity|]. simpl.
  rewrite opt_jsstr_eqb_neq by (intros ->; apply H; left; reflexivity). simpl.
  rewrite IH; [reflexivity|intros Hi; apply H; right; exact Hi].
Qed.

(** Toggling an id keeps a selection free of repetitions, and toggling it
    twice gives back the same selected ids; when the id was not selected,
    it gives back the very same selection. *)
Theorem toggle_twice (s : list (option jsstr)) (x : option jsstr) (Hs : NoDup s) :
  NoDup (handleToggleItemSelection s x)
  /\ (forall y, In y (handleToggleItemSelection (handleToggleItemSelection s x) x) <-> In y s)
  /\ (~ In x s -> handleToggleItemSelection (handleToggleItemSelection s x) x = s).
Proof.
  unfold handleToggleItemSelection. destruct (set_has s x) eqn:Hx.
  - apply set_has_in in Hx.
    assert (Hd : ~ In x (set_delete s x)) by (rewrite set_delete_in; tauto).
    assert (Hf : set_has (set_delete s x) x = false) by (destruct (set_has (set_delete s x) x) eqn:E; [apply set_has_in in E; contradiction|reflexivity]).
    rewrite Hf, set_add_spec, Hf. split; [apply NoDup_filter, Hs|]. split; [|intros N; contradiction].
    intros y. rewrite in_app_iff, set_delete_in. simpl. split; [intros [[H _]|[<-|[]]]; assumption|].
    intros Hy. destruct (opt_jsstr_eqb y x) eqn:E; [apply opt_jsstr_eqb_eq in E; subst; right; left; reflexivity|left; split; [exact Hy|intros Heq; subst; rewrite (proj2 (opt_jsstr_eqb_eq _ _) eq_refl) in E; discriminate]].
  - assert (Hx' : ~ In x s) by (rewrite <- set_has_in, Hx; discriminate).
    rewrite set_add_spec, Hx.
    assert (Ht : set_has (s ++ [x]) x = true) by (apply set_has_in, in_or_app; right; left; reflexivity).
    rewrite Ht. unfold set_delete. rewrite filter_app. simpl.
    rewrite (proj2 (opt_jsstr_eqb_eq x x) eq_refl). simpl. rewrite app_nil_r.
    fold (set_delete s x). rewrite (set_delete_absent s x Hx').
    split; [apply NoDup_snoc; assumption|]. split; [tauto|reflexivity].
Qed.
Lemma toggle_twice_witness :
  NoDup [Some (u "a")]
  /\ (NoDup (handleToggleItemSelection [Some (u "a")] None)
     /\ (forall y, In y (handleToggleItemSelection (handleToggleItemSelection [Some (u "a")] None) None)
                   <-> In y [Some (u "a")])
     /\ (~ In None [Some (u "a")] ->
         handleToggleItemSelection (handleToggleItemSelection [Some (u "a")] None) None = [Some (u "a")])).
Proof.
  assert (H : NoDup [Some (u "a")]) by (constructor; [intros []|constructor]).
  split; [exact H|exact (toggle_twice [Some (u "a")] None H)].
Defined.

End SelectionExtras.

Module AppExtras.
Import JsString History Samples HistoryFacts HistoryExtras AppHistory.

(** From a state where the history of [App] is the stored one, every
    history handler keeps the two in step when the storage writes succeed:
    the stored history is the new [App] history, except after a completed
    exercise, where the store keeps only its first 100 items while [App]
    keeps them all. *)
Theorem app_history_sync (B : Backend)
    (Hp : forall l, parse B (stringify B l) = Some l)
    (Ht : forall l, truthy B (stringify B l) = true)
    (Hfit : forall v, fits B v = true)
    (s : AppState B) (e : AppEvent) (Havail : available (store B s) = true)
    (Hsync : history B s = getHistory B (store B s)) :
  available (store B (app_step B s e)) = true
  /\ getHistory B (store B (app_step B s e))
     = match e with
       | Complete _ => firstn 100 (history B (app_step B s e))
       | _ => history B (app_step B s e)
       end.
Proof.
  destruct s as [h st]; simpl in Havail, Hsync; subst h.
  destruct e as [imp|i|ids|it|it]; simpl.
  - rewrite (merge_written B Hfit imp st Havail). simpl. split; [reflexivity|].
    apply getHistory_stored; auto.
  - destruct (delete_ok B Hp Ht Hfit i st Havail) as [E A]. split; assumption.
  - unfold deleteMultipleHistoryItems.
    destruct (save_ok B Hp Ht Hfit st (filter (fun item => match id item with
                          | Some x => negb (existsb (jsstr_eqb x) ids)
                          | None => true
                          end) (getHistory B st)) Havail) as [E' A']. split; assumption.
  - destruct (save_ok B Hp Ht Hfit st (map (fun item =>
                           if opt_jsstr_eqb (id item) (id it)
                           then it else item) (getHistory B st)) Havail) as [E A].
    split; assumption.
  - destruct (save_ok B Hp Ht Hfit st (firstn 100 (it :: getHistory B st)) Havail) as [E A].
    split; assumption.
Qed.

Lemma app_history_sync_witness :
  available (store mem_backend (app_step mem_backend
    ({| history := []; store := Build_Store true None |} : AppState mem_backend)
    (Complete (sample_item 1 "a" 0)))) = true
  /\ getHistory mem_backend (store mem_backend (app_step mem_backend
    ({| history := []; store := Build_Store true None |} : AppState mem_backend)
    (Complete (sample_item 1 "a" 0))))
     = firstn 100 (history mem_backend (app_step mem_backend
    ({| history := []; store := Build_Store true None |} : AppState mem_backend)
    (Complete (sample_item 1 "a" 0)))).
Proof.
  exact (app_history_sync mem_backend (fun l => eq_refl) (fun l => eq_refl) (fun v => eq_refl)
           {| history := []; store := Build_Store true None |} (Complete (sample_item 1 "a" 0)) eq_refl eq_refl).
Defined.
End AppExtras.
